(** * RocketShoes: the cart store of [src/hooks/useCart.tsx]

    A shallow embedding of the [CartProvider] component: the React state
    cells ([cart], [stock]), the two [useRef] cells, the three effects, the
    durable cache slot [localStorage["@RocketShoes:cart"]] and the three
    cart operations.  JavaScript objects and arrays live in an explicit
    heap and are named by references, because the operations mutate
    objects that the committed cart array still points to, and because the
    effects compare values by identity ([!==]). *)

From Stdlib Require Import ZArith Lia Ascii DecimalString DecimalZ.
From stdpp Require Import base option list gmap strings.

(** ** Completions: a state monad whose computations may throw *)

Inductive completion (A : Type) : Type :=
  | Normal (a : A)
  | Thrown.
Arguments Normal {A} a.
Arguments Thrown {A}.

Definition M (S A : Type) : Type := S → completion A * S.

Definition ret {S A} (a : A) : M S A := λ s, (Normal a, s).

Definition throw {S A} : M S A := λ s, (Thrown, s).

Definition bind {S A B} (m : M S A) (k : A → M S B) : M S B :=
  λ s, match m s with
       | (Normal a, s') => k a s'
       | (Thrown, s') => (Thrown, s')
       end.

(** [try { m } catch { h }]: the handler runs in the state the body left
    behind; nothing is rolled back. *)
Definition try_catch {S A} (m : M S A) (h : M S A) : M S A :=
  λ s, match m s with
       | (Normal a, s') => (Normal a, s')
       | (Thrown, s') => h s'
       end.

Definition gets {S A} (f : S → A) : M S A := λ s, (Normal (f s), s).

Definition modify {S} (f : S → S) : M S unit := λ s, (Normal tt, f s).

(** A value that may be [undefined]: using it throws a [TypeError]. *)
Definition defined {S A} (o : option A) : M S A :=
  match o with
  | Some a => ret a
  | None => throw
  end.

Declare Scope js_scope.
Delimit Scope js_scope with js.
Notation "'let*' x ':=' m 'in' k" := (bind m (λ x, k))
  (at level 10, x name, m at level 100, k at level 200) : js_scope.
Notation "m ';;' k" := (bind m (λ _, k))
  (at level 100, k at level 200, right associativity) : js_scope.

(** ** Answers of the remote reader

    [api.get] either rejects (network failure, status 404, ...) or
    resolves with a [data] payload, which may itself be empty. *)

Inductive Response (A : Type) : Type :=
  | Rejected
  | Resolved (data : option A).
Arguments Rejected {A}.
Arguments Resolved {A} data.

Definition await {S A} (r : Response A) : M S (option A) :=
  match r with
  | Rejected => throw
  | Resolved data => ret data
  end.

(** An object reference. *)
Abbreviation ref := nat.

(** Modelled from the spec: the [Stock] interface of [src/types], which is
    not among the sources.  The remote reader answers a stock query with an
    amount and the full listing with rows of product id and amount; the
    code reads them as [stock.id] and [stock.amount]. *)
Record Stock : Type := mkStock {
  stock_id : Z;
  stock_amount : Z;
}.

(** [StockAmount]: the index signature [{ [key: number]: number }]. *)
Abbreviation StockAmount := (gmap Z Z).

(** [data.reduce((sumAmount, stock) => { sumAmount[stock.id] = stock.amount;
    return sumAmount; }, {})] *)
Definition reduce_stock (data : list Stock) : StockAmount :=
  foldl (λ sumAmount stock, <[stock_id stock := stock_amount stock]> sumAmount)
        ∅ data.

(** The messages handed to [toast.error]. *)
Definition msg_add : string := "Erro na adição do produto".
Definition msg_stock : string := "Quantidade solicitada fora de estoque".
Definition msg_remove : string := "Erro na remoção do produto".
Definition msg_update : string := "Erro na alteração de quantidade do produto".

(** Modelled from the spec: the [Product] interface of [src/types], which
    is not among the sources.  A line item has a product id, an integer
    amount and other metadata (name, price, image) carried opaquely; the
    code reads the first two as [id] and [amount].  [Meta] stands for the
    rest: the store carries it along and never looks inside. *)
Record Product (Meta : Type) : Type := mkProduct {
  id : Z;
  amount : Z;
  meta : Meta;
}.
Arguments mkProduct {Meta} id amount meta.
Arguments id {Meta} p.
Arguments amount {Meta} p.
Arguments meta {Meta} p.

Definition set_amount {Meta} (a : Z) (p : Product Meta) : Product Meta :=
  {| id := id p; amount := a; meta := meta p |}.

(** ** Numbers

    [amount] is a JavaScript number, an IEEE 754 double.  The store only
    ever holds whole amounts, which are kept here as integers; the one
    arithmetic operation of the code, [amount++], is a double addition and
    rounds its result.  [to_double x] is the double nearest to the integer
    [x], ties going to the even significand: integers of magnitude up to
    [2^53] are doubles, beyond that the low bits are rounded away.  (No
    amount the code can hold sends [amount++] past the largest double.) *)
Definition to_double (x : Z) : Z :=
  let m := Z.abs x in
  let k := (Z.log2 m - 52)%Z in
  if bool_decide (k <= 0)%Z then x
  else
    let q := Z.shiftr m k in
    let r := (m - Z.shiftl q k)%Z in
    let half := Z.shiftl 1 (k - 1) in
    let q' := if bool_decide (r < half)%Z then q
              else if bool_decide (half < r)%Z then (q + 1)%Z
              else if Z.even q then q else (q + 1)%Z in
    (Z.sgn x * Z.shiftl q' k)%Z.

(** [x + 1] on JavaScript numbers, as in [x++]. *)
Definition js_succ (x : Z) : Z := to_double (x + 1).

(** The predicate of the [find] and [findIndex] callbacks,
    [product.id === productId]. *)
Definition has_id {Meta} (productId : Z) (p : Product Meta) : Prop :=
  id p = productId.

#[export] Instance has_id_dec {Meta} productId (p : Product Meta)
  : Decision (has_id productId p) := decide (id p = productId).

(** What [JSON.parse] returns for a text that is valid JSON: an array of
    products, which is what the type [Product[]] of the cart promises, or
    any other value ([null], a number, an object, ...), which TypeScript
    does not rule out at run time. *)
Inductive Parsed (Meta Json : Type) : Type :=
  | IsCart (c : list (Product Meta))
  | NotCart (v : Json).
Arguments IsCart {Meta Json} c.
Arguments NotCart {Meta Json} v.

(** [JSON.parse] and [JSON.stringify].  [Json] is the type of the values
    that are not carts; for [JSON_parse], [None] is a [SyntaxError].
    [JSON_stringify] is only ever applied to a cart. *)
Class JSON (Meta : Type) : Type := {
  Json : Type;
  JSON_parse : string → option (Parsed Meta Json);
  JSON_stringify : list (Product Meta) → string;
}.

Section CartProvider.

Context {Meta : Type} {json : JSON Meta}.

Local Abbreviation Product := (Product Meta).

(** Modelled from the spec: the remote reader behind [api.get] ([api] of
    [src/services/api] is not among the sources).  Given a product id it
    answers with the product or with its stock row, or the request fails. *)
Record Remote : Type := mkRemote {
  get_product : Z → Response Product;      (* GET products/:id *)
  get_stock : Z → Response Stock;          (* GET stock/:id *)
}.

(** ** The store

    [objects], [arrays] and [stocks] are the heap: a reference is an index,
    allocation appends.  [cart] and [stock] are the two [useState] cells,
    [prevCartRef] and [prevStockRef] the two [useRef] cells ([None] is
    [undefined]).  [cartDeps] and [stockDeps] are the dependency arrays
    React remembers for the second and third effect.  [loads] counts the
    [loadStocks] calls whose request is in flight, and [dirty] says that a
    state setter has scheduled a render. *)
Record Store : Type := mkStore {
  objects : list Product;
  arrays : list (list ref);
  stocks : list StockAmount;
  cart : ref;
  stock : ref;
  prevCartRef : option ref;
  prevStockRef : option ref;
  cartDeps : option (ref * ref);
  stockDeps : option (ref * ref);
  localStorage : option string;
  toasts : list string;
  loads : nat;
  dirty : bool;
}.

Definition with_objects (v : list Product) (s : Store) : Store :=
  mkStore v (arrays s) (stocks s) (cart s) (stock s) (prevCartRef s)
    (prevStockRef s) (cartDeps s) (stockDeps s) (localStorage s) (toasts s)
    (loads s) (dirty s).

Definition with_arrays (v : list (list ref)) (s : Store) : Store :=
  mkStore (objects s) v (stocks s) (cart s) (stock s) (prevCartRef s)
    (prevStockRef s) (cartDeps s) (stockDeps s) (localStorage s) (toasts s)
    (loads s) (dirty s).

Definition with_stocks (v : list StockAmount) (s : Store) : Store :=
  mkStore (objects s) (arrays s) v (cart s) (stock s) (prevCartRef s)
    (prevStockRef s) (cartDeps s) (stockDeps s) (localStorage s) (toasts s)
    (loads s) (dirty s).

Definition with_cart (v : ref) (s : Store) : Store :=
  mkStore (objects s) (arrays s) (stocks s) v (stock s) (prevCartRef s)
    (prevStockRef s) (cartDeps s) (stockDeps s) (localStorage s) (toasts s)
    (loads s) (dirty s).

Definition with_stock (v : ref) (s : Store) : Store :=
  mkStore (objects s) (arrays s) (stocks s) (cart s) v (prevCartRef s)
    (prevStockRef s) (cartDeps s) (stockDeps s) (localStorage s) (toasts s)
    (loads s) (dirty s).

Definition with_prevRefs (c k : option ref) (s : Store) : Store :=
  mkStore (objects s) (arrays s) (stocks s) (cart s) (stock s) c k
    (cartDeps s) (stockDeps s) (localStorage s) (toasts s) (loads s) (dirty s).

Definition with_cartDeps (v : option (ref * ref)) (s : Store) : Store :=
  mkStore (objects s) (arrays s) (stocks s) (cart s) (stock s) (prevCartRef s)
    (prevStockRef s) v (stockDeps s) (localStorage s) (toasts s)
    (loads s) (dirty s).

Definition with_stockDeps (v : option (ref * ref)) (s : Store) : Store :=
  mkStore (objects s) (arrays s) (stocks s) (cart s) (stock s) (prevCartRef s)
    (prevStockRef s) (cartDeps s) v (localStorage s) (toasts s)
    (loads s) (dirty s).

Definition with_localStorage (v : option string) (s : Store) : Store :=
  mkStore (objects s) (arrays s) (stocks s) (cart s) (stock s) (prevCartRef s)
    (prevStockRef s) (cartDeps s) (stockDeps s) v (toasts s)
    (loads s) (dirty s).

Definition with_toasts (v : list string) (s : Store) : Store :=
  mkStore (objects s) (arrays s) (stocks s) (cart s) (stock s) (prevCartRef s)
    (prevStockRef s) (cartDeps s) (stockDeps s) (localStorage s) v
    (loads s) (dirty s).

Definition with_loads (v : nat) (s : Store) : Store :=
  mkStore (objects s) (arrays s) (stocks s) (cart s) (stock s) (prevCartRef s)
    (prevStockRef s) (cartDeps s) (stockDeps s) (localStorage s) (toasts s)
    v (dirty s).

Definition with_dirty (v : bool) (s : Store) : Store :=
  mkStore (objects s) (arrays s) (stocks s) (cart s) (stock s) (prevCartRef s)
    (prevStockRef s) (cartDeps s) (stockDeps s) (localStorage s) (toasts s)
    (loads s) v.

(** ** Heap primitives *)

(** A fresh object literal / a fresh response payload. *)
Definition new_object (p : Product) : M Store ref :=
  λ s, (Normal (length (objects s)), with_objects (objects s ++ [p]) s).

(** A fresh array. *)
Definition new_array (l : list ref) : M Store ref :=
  λ s, (Normal (length (arrays s)), with_arrays (arrays s ++ [l]) s).

(** Reading a property of [o]; [undefined.prop] throws. *)
Definition read_object (o : ref) : M Store Product :=
  (let* ob := gets (λ s, objects s !! o) in defined ob)%js.

Definition read_array (a : ref) : M Store (list ref) :=
  (let* l := gets (λ s, arrays s !! a) in defined l)%js.

(** [o.amount = v] *)
Definition write_amount (o : ref) (v : Z) : M Store unit :=
  (let* p := read_object o in
   modify (λ s, with_objects (<[o := set_amount v p]> (objects s)) s))%js.

(** [a.splice(i, 1)] *)
Definition splice1 (a : ref) (i : nat) : M Store unit :=
  (let* l := read_array a in
   modify (λ s, with_arrays (<[a := delete i l]> (arrays s)) s))%js.

(** [[...a]] *)
Definition spread (a : ref) : M Store ref :=
  (let* l := read_array a in new_array l)%js.

(** [[...a, o]] *)
Definition spread_push (a : ref) (o : ref) : M Store ref :=
  (let* l := read_array a in new_array (l ++ [o]))%js.

(** [l.find(x => x.id === productId)] over the elements [l] of an array:
    the callback dereferences each element it visits. *)
Fixpoint find_by_id (objs : list Product) (productId : Z) (l : list ref)
  : completion (option ref) :=
  match l with
  | [] => Normal None
  | o :: l' =>
    match objs !! o with
    | None => Thrown
    | Some p => if bool_decide (id p = productId) then Normal (Some o)
                else find_by_id objs productId l'
    end
  end.

(** [l.findIndex(x => x.id === productId)], counting from [i]; [-1] when no
    element matches. *)
Fixpoint findIndex_by_id (objs : list Product) (productId : Z) (l : list ref)
  (i : Z) : completion Z :=
  match l with
  | [] => Normal (-1)%Z
  | o :: l' =>
    match objs !! o with
    | None => Thrown
    | Some p => if bool_decide (id p = productId) then Normal i
                else findIndex_by_id objs productId l' (i + 1)%Z
    end
  end.

Definition array_find (a : ref) (productId : Z) : M Store (option ref) :=
  (let* l := read_array a in
   λ s, (find_by_id (objects s) productId l, s))%js.

Definition array_findIndex (a : ref) (productId : Z) : M Store Z :=
  (let* l := read_array a in
   λ s, (findIndex_by_id (objects s) productId l 0%Z, s))%js.

Definition toast_error (msg : string) : M Store unit :=
  modify (λ s, with_toasts (msg :: toasts s) s).

(** The setter of [useState]: React bails out when the new value is the
    value it already holds, and schedules a render otherwise. *)
Definition setCart (a : ref) : M Store unit :=
  modify (λ s, if decide (a = cart s) then s
               else with_dirty true (with_cart a s)).

Definition setStock (k : ref) : M Store unit :=
  modify (λ s, if decide (k = stock s) then s
               else with_dirty true (with_stock k s)).

(** ** The remote calls *)

(** [getProduct]: the payload of the response is a fresh object. *)
Definition getProduct (api : Remote) (productId : Z) : M Store (option ref) :=
  (let* data := await (get_product api productId) in
   match data with
   | None => ret None
   | Some p => let* product := new_object p in ret (Some product)
   end)%js.

Definition getStock (api : Remote) (productId : Z) : M Store (option Stock) :=
  await (get_stock api productId).

(** ** The three operations *)

Definition addProduct (api : Remote) (productId : Z) : M Store unit :=
  try_catch
    (let* cart := gets cart in
     let* updatedCart := spread cart in
     let* product := getProduct api productId in
     match product with
     | None => toast_error msg_add
     | Some product =>
       let* productExists := array_find updatedCart productId in
       match productExists with
       | None =>
         write_amount product 1 ;;
         let* appended := spread_push updatedCart product in
         setCart appended
       | Some productExists =>
         let* fetched := getStock api productId in
         let* fetched := defined fetched in
         let amount_ := stock_amount fetched in
         let* existing := read_object productExists in
         if bool_decide (amount existing >= amount_)%Z then
           toast_error msg_stock
         else
           write_amount productExists (js_succ (amount existing)) ;;
           setCart updatedCart
       end
     end)%js
    (toast_error msg_add).

Definition removeProduct (productId : Z) : M Store unit :=
  try_catch
    (let* cart := gets cart in
     let* updatedCart := spread cart in
     let* productIndex := array_findIndex updatedCart productId in
     if bool_decide (productIndex < 0)%Z then throw
     else
       splice1 updatedCart (Z.to_nat productIndex) ;;
       setCart updatedCart)%js
    (toast_error msg_remove).

Definition updateProductAmount (api : Remote) (productId amount_ : Z)
  : M Store unit :=
  try_catch
    (if bool_decide (amount_ < 1)%Z then throw
     else
       let* fetched := getStock api productId in
       let* fetched := defined fetched in
       let stockAmount := stock_amount fetched in
       if bool_decide (stockAmount < amount_)%Z then
         toast_error msg_stock
       else
         let* cart := gets cart in
         let* updatedCart := spread cart in
         let* productExists := array_find updatedCart productId in
         match productExists with
         | None => throw
         | Some productExists =>
           write_amount productExists amount_ ;;
           setCart updatedCart
         end)%js
    (toast_error msg_update).

(** ** Rendering *)

(** The products the committed cart array points to, in order. *)
Definition cart_content (s : Store) : option (list Product) :=
  match arrays s !! cart s with
  | Some l => mapM (λ o, objects s !! o) l
  | None => None
  end.

(** The mapping the [stock] cell points to. *)
Definition stock_snapshot (s : Store) : option StockAmount :=
  stocks s !! stock s.

(** [localStorage.setItem("@RocketShoes:cart", JSON.stringify(cart))].
    The codec is typed at [Product[]]; a cart with a dangling element has
    no content and is left out of the model (no reachable store has one,
    see [reachable_inv]). *)
Definition mirror (s : Store) : Store :=
  match cart_content s with
  | Some c => with_localStorage (Some (JSON_stringify c)) s
  | None => s
  end.

(** Has a dependency array changed since the effect last ran? *)
Definition deps_changed (last : option (ref * ref)) (now : ref * ref) : bool :=
  match last with
  | None => true
  | Some d => bool_decide (d ≠ now)
  end.

(** [loadStocks()] as called from the effect: the promise is dropped and
    the request goes out; [loadStocks] below runs when the answer arrives. *)
Definition loadStocks_call (s : Store) : Store :=
  with_loads (S (loads s)) s.

(** One render of [CartProvider] followed by its effects, in the order
    they are declared. *)
Definition render (s : Store) : Store :=
  let cartPreviousValue := default (cart s) (prevCartRef s) in
  let stockPreviousValue := default (stock s) (prevStockRef s) in
  (* useEffect(() => { prevCartRef.current = cart; ... }) *)
  let s1 := with_prevRefs (Some (cart s)) (Some (stock s)) s in
  (* useEffect(..., [cart, cartPreviousValue]) *)
  let s2 :=
    if deps_changed (cartDeps s1) (cart s, cartPreviousValue) then
      with_cartDeps (Some (cart s, cartPreviousValue))
        (if bool_decide (cartPreviousValue ≠ cart s) then mirror s1 else s1)
    else s1 in
  (* useEffect(..., [stock, stockPreviousValue]) *)
  if deps_changed (stockDeps s2) (stock s, stockPreviousValue) then
    with_stockDeps (Some (stock s, stockPreviousValue))
      (if bool_decide (stockPreviousValue ≠ stock s) then loadStocks_call s2
       else s2)
  else s2.

(** React runs the scheduled render once the handler has finished. *)
Definition flush (s : Store) : Store :=
  if dirty s then render (with_dirty false s) else s.

Definition invoke (m : M Store unit) (s : Store) : Store :=
  flush (m s).2.

(** [loadStocks], given the answer to its [api.get("/stock")].  Nothing
    catches a rejection: the store stays as it is. *)
Definition new_stock (m : StockAmount) : M Store ref :=
  λ s, (Normal (length (stocks s)), with_stocks (stocks s ++ [m]) s).

Definition loadStocks (r : Response (list Stock)) : M Store unit :=
  (let* data := await r in
   let* data := defined data in
   let* stockAmount := new_stock (reduce_stock data) in
   setStock stockAmount)%js.

(** ** Mounting *)

(** The lazy initial state of the [cart] cell: whatever [JSON.parse]
    returns for a non-empty slot, the empty array otherwise.  Nothing
    catches the [SyntaxError] of [JSON.parse]. *)
Definition initial_cart (storedCart : option string)
  : completion (Parsed Meta Json) :=
  match storedCart with
  | Some text =>
    if bool_decide (text ≠ EmptyString) then
      match JSON_parse text with
      | Some parsed => Normal parsed
      | None => Thrown
      end
    else Normal (IsCart [])
  | None => Normal (IsCart [])
  end.

(** The first render over a cart: the parsed products are fresh objects,
    the cart a fresh array of them, the stock snapshot a fresh empty
    object. *)
Definition first_render (slot : option string) (c : list Product) : Store :=
  render
    {| objects := c; arrays := [seq 0 (length c)]; stocks := [∅];
       cart := 0; stock := 0; prevCartRef := None; prevStockRef := None;
       cartDeps := None; stockDeps := None; localStorage := slot;
       toasts := []; loads := 0; dirty := false |}.

(** A mounted component.  [Typed s]: the cart cell holds an array of
    products and the store is [s].  [Untyped v]: the cart cell holds the
    value [v], which is not an array of products; the component is mounted
    all the same, and what the operations do with such a cart is outside
    this model, which follows the declared type [Product[]]. *)
Inductive Mounted : Type :=
  | Typed (s : Store)
  | Untyped (v : Json).

(** Mounting, given what the cache slot holds. *)
Definition mount (slot : option string) : completion Mounted :=
  match initial_cart slot with
  | Thrown => Thrown
  | Normal (IsCart c) => Normal (Typed (first_render slot c))
  | Normal (NotCart v) => Normal (Untyped v)
  end.

(** ** Events and reachable stores *)

Inductive Operation : Type :=
  | AddProduct (productId : Z)
  | RemoveProduct (productId : Z)
  | UpdateProductAmount (productId amount_ : Z).

Definition perform (api : Remote) (op : Operation) : Store → Store :=
  match op with
  | AddProduct productId => invoke (addProduct api productId)
  | RemoveProduct productId => invoke (removeProduct productId)
  | UpdateProductAmount productId amount_ =>
    invoke (updateProductAmount api productId amount_)
  end.

(** The answer to a pending [GET /stock]. *)
Definition stock_listing (r : Response (list Stock)) (s : Store) : Store :=
  match loads s with
  | O => s
  | S n => invoke (loadStocks r) (with_loads n s)
  end.

Inductive Event : Type :=
  | Call (api : Remote) (op : Operation)
  | Listing (r : Response (list Stock)).

Definition handle (e : Event) : Store → Store :=
  match e with
  | Call api op => perform api op
  | Listing r => stock_listing r
  end.

Inductive reachable : Store → Prop :=
  | reachable_mount slot s : mount slot = Normal (Typed s) → reachable s
  | reachable_handle e s : reachable s → reachable (handle e s).

(** An operation signals a failure by calling [toast.error]. *)
Definition signals (s s' : Store) (msg : string) : Prop :=
  toasts s' = msg :: toasts s.

Definition signals_failure (s s' : Store) : Prop :=
  toasts s' ≠ toasts s.

End CartProvider.

Arguments Remote Meta : clear implicits.
Arguments Store Meta : clear implicits.
Arguments Event Meta : clear implicits.

(** ** A reference codec

    A codec for products that carry only [id] and [amount].  [stringify]
    emits the text [JSON.stringify] emits for an array of them, such as
    [[{"id":1,"amount":2}]].  [parse] follows the JSON grammar: a text that
    is not JSON is a [SyntaxError], a text that denotes an array of such
    products is that cart, and any other JSON text is the value it
    denotes. *)

Module Canonical.

Definition dq : string := String (Ascii.ascii_of_nat 34) EmptyString.

(** ["name":] *)
Definition key (name : string) : string := dq +:+ name +:+ dq +:+ ":".

Definition print_Z (z : Z) : string := NilEmpty.string_of_int (Z.to_int z).

(** [{"id":] and [,"amount":] *)
Definition open_id : string := "{" +:+ key "id".
Definition sep_amount : string := "," +:+ key "amount".

Definition print_product (p : Product unit) : string :=
  open_id +:+ print_Z (id p) +:+ sep_amount +:+ print_Z (amount p) +:+ "}".

Fixpoint print_products (c : list (Product unit)) : string :=
  match c with
  | [] => EmptyString
  | [p] => print_product p
  | p :: c' => print_product p +:+ "," +:+ print_products c'
  end.

Definition stringify (c : list (Product unit)) : string :=
  "[" +:+ print_products c +:+ "]".

(** Strip the prefix [pre] from [s]. *)
Fixpoint expect (pre s : string) : option string :=
  match pre, s with
  | EmptyString, _ => Some s
  | String a pre', String b s' =>
    if bool_decide (a = b) then expect pre' s' else None
  | String _ _, EmptyString => None
  end.

(** The longest prefix of decimal digits, and what follows it. *)
Fixpoint parse_digits (s : string) : Decimal.uint * string :=
  match s with
  | EmptyString => (Decimal.Nil, s)
  | String a s' =>
    let (d, rest) := parse_digits s' in
    match uint_of_char a (Some d) with
    | Some d' => (d', rest)
    | None => (Decimal.Nil, s)
    end
  end.

(** The digits of a JSON integer: at least one, and no leading zero unless
    it is the only digit. *)
Definition well_formed (d : Decimal.uint) : bool :=
  match d with
  | Decimal.Nil => false
  | Decimal.D0 Decimal.Nil => true
  | Decimal.D0 _ => false
  | _ => true
  end.

Definition parse_Z (s : string) : option (Z * string) :=
  match s with
  | String "-"%char s' =>
    let (d, rest) := parse_digits s' in
    if well_formed d then Some (Z.of_int (Decimal.Neg d), rest) else None
  | _ =>
    let (d, rest) := parse_digits s in
    if well_formed d then Some (Z.of_int (Decimal.Pos d), rest) else None
  end.

Definition parse_product (s : string) : option (Product unit * string) :=
  s ← expect open_id s;
  '(i, s) ← parse_Z s;
  s ← expect sep_amount s;
  '(a, s) ← parse_Z s;
  s ← expect "}" s;
  Some (mkProduct i a tt, s).

(** The products of a non-empty array, up to and including the closing
    bracket. *)
Fixpoint parse_products (fuel : nat) (s : string)
  : option (list (Product unit)) :=
  match fuel with
  | O => None
  | S fuel' =>
    '(p, s) ← parse_product s;
    match s with
    | String "]"%char EmptyString => Some [p]
    | String ","%char s' => (p ::.) <$> parse_products fuel' s'
    | _ => None
    end
  end.

(** The text [stringify] emits, read back directly. *)
Definition parse_cart (s : string) : option (list (Product unit)) :=
  match s with
  | String "["%char (String "]"%char EmptyString) => Some []
  | String "["%char s' => parse_products (String.length s') s'
  | _ => None
  end.

(** JSON values.  Number literals and the text between the quotes of a
    string are kept as written. *)
#[warnings="-register-all"]
Inductive json : Type :=
  | JNull
  | JBool (b : bool)
  | JNumber (literal : string)
  | JString (raw : string)
  | JArray (elements : list json)
  | JObject (members : list (string * json)).

Definition is_ws (a : ascii) : bool :=
  bool_decide (nat_of_ascii a ∈ [32; 9; 10; 13]).

Definition is_digit (a : ascii) : bool :=
  bool_decide (48 ≤ nat_of_ascii a ≤ 57).

Definition is_hex (a : ascii) : bool :=
  let n := nat_of_ascii a in
  bool_decide (48 ≤ n ≤ 57 ∨ 65 ≤ n ≤ 70 ∨ 97 ≤ n ≤ 102).

(** The characters that may follow a backslash, [u] apart. *)
Definition is_escape (a : ascii) : bool :=
  bool_decide (nat_of_ascii a ∈ [34; 92; 47; 98; 102; 110; 114; 116]).

Fixpoint skip_ws (s : string) : string :=
  match s with
  | String a s' => if is_ws a then skip_ws s' else s
  | EmptyString => s
  end.

(** The longest prefix of digits, and what follows it. *)
Fixpoint digits (s : string) : string * string :=
  match s with
  | String a s' =>
    if is_digit a then let (ds, rest) := digits s' in (String a ds, rest)
    else (EmptyString, s)
  | EmptyString => (EmptyString, s)
  end.

(** One digit or more. *)
Definition digits1 (s : string) : option (string * string) :=
  match digits s with
  | (EmptyString, _) => None
  | (ds, rest) => Some (ds, rest)
  end.

(** [0], or a non-zero digit followed by digits. *)
Definition integer_part (s : string) : option (string * string) :=
  match s with
  | String "0"%char rest => Some ("0", rest)
  | _ => digits1 s
  end.

Definition fraction_part (s : string) : option (string * string) :=
  match s with
  | String "."%char s' =>
    '(ds, rest) ← digits1 s'; Some (String "."%char ds, rest)
  | _ => Some (EmptyString, s)
  end.

Definition sign_part (s : string) : string * string :=
  match s with
  | String a s' =>
    if bool_decide (a = "+"%char ∨ a = "-"%char)
    then (String a EmptyString, s') else (EmptyString, s)
  | EmptyString => (EmptyString, s)
  end.

Definition exponent_part (s : string) : option (string * string) :=
  match s with
  | String a s' =>
    if bool_decide (a = "e"%char ∨ a = "E"%char) then
      let (sg, s'') := sign_part s' in
      '(ds, rest) ← digits1 s''; Some (String a (sg +:+ ds), rest)
    else Some (EmptyString, s)
  | EmptyString => Some (EmptyString, s)
  end.

(** A number literal, and what follows it. *)
Definition parse_number (s : string) : option (string * string) :=
  let (minus, s) := match s with
                    | String "-"%char s' => ("-", s')
                    | _ => (EmptyString, s)
                    end in
  '(int, s) ← integer_part s;
  '(frac, s) ← fraction_part s;
  '(exp, s) ← exponent_part s;
  Some (minus +:+ int +:+ frac +:+ exp, s).

(** The rest of a string after its opening quote, up to the closing one:
    no control character, and a backslash only before an escape. *)
Fixpoint parse_string_body (s : string) : option (string * string) :=
  match s with
  | EmptyString => None
  | String a r =>
    if bool_decide (nat_of_ascii a = 34) then Some (EmptyString, r)
    else if bool_decide (nat_of_ascii a = 92) then
      match r with
      | String e r' =>
        if is_escape e then
          '(raw, rest) ← parse_string_body r';
          Some (String a (String e raw), rest)
        else if bool_decide (e = "u"%char) then
          match r' with
          | String h1 (String h2 (String h3 (String h4 r''))) =>
            if is_hex h1 && is_hex h2 && is_hex h3 && is_hex h4 then
              '(raw, rest) ← parse_string_body r'';
              Some (String a (String e (String h1 (String h2
                      (String h3 (String h4 raw))))), rest)
            else None
          | _ => None
          end
        else None
      | EmptyString => None
      end
    else if bool_decide (nat_of_ascii a < 32) then None
    else '(raw, rest) ← parse_string_body r; Some (String a raw, rest)
  end.

(** The elements of a non-empty array, from the first element up to and
    including the closing bracket; [value] parses one element. *)
Fixpoint parse_elements (value : string → option (json * string))
  (fuel : nat) (s : string) : option (list json * string) :=
  match fuel with
  | O => None
  | S fuel' =>
    '(v, r) ← value s;
    match skip_ws r with
    | String ","%char r' =>
      '(vs, rest) ← parse_elements value fuel' r'; Some (v :: vs, rest)
    | String "]"%char rest => Some ([v], rest)
    | _ => None
    end
  end.

(** The members of a non-empty object, likewise. *)
Fixpoint parse_members (value : string → option (json * string))
  (fuel : nat) (s : string) : option (list (string * json) * string) :=
  match fuel with
  | O => None
  | S fuel' =>
    match skip_ws s with
    | String a r =>
      if bool_decide (nat_of_ascii a = 34) then
        '(k, r) ← parse_string_body r;
        match skip_ws r with
        | String ":"%char r =>
          '(v, r) ← value r;
          match skip_ws r with
          | String ","%char r' =>
            '(ms, rest) ← parse_members value fuel' r';
            Some ((k, v) :: ms, rest)
          | String "}"%char rest => Some ([(k, v)], rest)
          | _ => None
          end
        | _ => None
        end
      else None
    | EmptyString => None
    end
  end.

(** A value, with the white space before it, and what follows it. *)
Fixpoint parse_value (fuel : nat) (s : string) : option (json * string) :=
  match fuel with
  | O => None
  | S fuel' =>
    match skip_ws s with
    | EmptyString => None
    | String a r =>
      if bool_decide (a = "{"%char) then
        match skip_ws r with
        | String "}"%char rest => Some (JObject [], rest)
        | _ =>
          '(ms, rest) ← parse_members (parse_value fuel') fuel' r;
          Some (JObject ms, rest)
        end
      else if bool_decide (a = "["%char) then
        match skip_ws r with
        | String "]"%char rest => Some (JArray [], rest)
        | _ =>
          '(vs, rest) ← parse_elements (parse_value fuel') fuel' r;
          Some (JArray vs, rest)
        end
      else if bool_decide (nat_of_ascii a = 34) then
        '(raw, rest) ← parse_string_body r; Some (JString raw, rest)
      else if bool_decide (a = "t"%char) then
        rest ← expect "rue" r; Some (JBool true, rest)
      else if bool_decide (a = "f"%char) then
        rest ← expect "alse" r; Some (JBool false, rest)
      else if bool_decide (a = "n"%char) then
        rest ← expect "ull" r; Some (JNull, rest)
      else
        '(literal, rest) ← parse_number (String a r);
        Some (JNumber literal, rest)
    end
  end.

(** A whole text: one value, white space around it and nothing else. *)
Definition parse_json (s : string) : option json :=
  '(v, rest) ← parse_value (S (String.length s)) s;
  match skip_ws rest with
  | EmptyString => Some v
  | _ => None
  end.

(** An integer literal, without fraction or exponent. *)
Definition integer_of_literal (literal : string) : option Z :=
  '(z, rest) ← parse_Z literal;
  match rest with
  | EmptyString => Some z
  | _ => None
  end.

(** A value that is a product: an object with the members [id] and
    [amount], in this order, both integers. *)
Definition as_product (v : json) : option (Product unit) :=
  match v with
  | JObject [(k1, JNumber i); (k2, JNumber a)] =>
    if bool_decide (k1 = "id" ∧ k2 = "amount") then
      i ← integer_of_literal i; a ← integer_of_literal a;
      Some (mkProduct i a tt)
    else None
  | _ => None
  end.

Definition as_cart (v : json) : option (list (Product unit)) :=
  match v with
  | JArray vs => mapM as_product vs
  | _ => None
  end.

(** [JSON.parse]: the text [stringify] emits is read back directly; any
    other text is parsed as JSON and is a cart when its value is an array
    of products. *)
Definition parse (s : string) : option (Parsed unit json) :=
  match parse_cart s with
  | Some c => Some (IsCart c)
  | None =>
    v ← parse_json s;
    Some (match as_cart v with
          | Some c => IsCart c
          | None => NotCart v
          end)
  end.

(** A character that is not a decimal digit. *)
Definition delimiter (a : ascii) : Prop :=
  ∀ d, uint_of_char a (Some d) = None.

#[export] Instance codec : JSON unit :=
  {| Json := json; JSON_parse := parse; JSON_stringify := stringify |}.

End Canonical.

(** ** Concrete stores and remotes used by the examples *)

Module Demo.
Import Canonical.

(** A remote that knows product [1] only, with [n] pieces in stock. *)
Definition shop (n : Z) : Remote unit :=
  {| get_product := λ i, if bool_decide (i = 1%Z)
                         then Resolved (Some (mkProduct 1 0 tt))
                         else Rejected;
     get_stock := λ i, if bool_decide (i = 1%Z)
                       then Resolved (Some (mkStock 1 n))
                       else Rejected |}.

(** The store mounted over an empty cache slot. *)
Definition fresh : Store unit :=
  {| objects := []; arrays := [[]]; stocks := [∅]; cart := 0; stock := 0;
     prevCartRef := Some 0; prevStockRef := Some 0;
     cartDeps := Some (0, 0); stockDeps := Some (0, 0);
     localStorage := None; toasts := []; loads := 0; dirty := false |}.

(** A remote that cannot be reached. *)
Definition offline : Remote unit :=
  {| get_product := λ _, Rejected; get_stock := λ _, Rejected |}.

(** A remote that knows product [1] and cannot tell its stock. *)
Definition unstocked : Remote unit :=
  {| get_product := get_product (shop 0); get_stock := λ _, Rejected |}.

(** The fresh store with one [loadStocks] request in flight. *)
Definition waiting : Store unit := with_loads 1 fresh.

(** The store after product [1] was added once. *)
Definition one_item : Store unit := perform (shop 5) (AddProduct 1) fresh.

(** The store mounted over a slot holding the empty array. *)
Definition fresh_over_empty : Store unit := first_render (Some "[]") [].





End Demo.

(** * Properties *)

Section Properties.

Context {Meta : Type} {json : JSON Meta}.

Implicit Types (s : Store Meta) (c : list (Product Meta)) (l : list ref).
Implicit Types (api : Remote Meta) (op : Operation) (p q : Product Meta).

(** [holds objs l c]: the references [l] point, in order, to the products
    [c]. *)
Definition holds (objs : list (Product Meta)) l c : Prop :=
  Forall2 (λ o p, objs !! o = Some p) l c.

(** The cart cell points to the array [l], whose elements are distinct
    objects holding the products [c]. *)
Definition cart_at s l c : Prop :=
  arrays s !! cart s = Some l ∧ holds (objects s) l c ∧ NoDup l.

(** No render is pending: the effects of the last render have recorded the
    current cart. *)
Definition settled s : Prop :=
  dirty s = false ∧ prevCartRef s = Some (cart s) ∧
  fst <$> cartDeps s = Some (cart s).

Definition wf s : Prop := (∃ l c, cart_at s l c) ∧ settled s.

(** The operation called [toast.error msg] and left the cart cell, the
    content of the cart and the cache slot as they were. *)
Definition failure s s' (msg : string) : Prop :=
  toasts s' = msg :: toasts s ∧ cart s' = cart s ∧
  cart_content s' = cart_content s ∧ localStorage s' = localStorage s ∧
  wf s'.

(** The operation replaced the cart by a new array holding [c'], called
    no [toast.error], and the cache slot holds the text of [c']. *)
Definition committed s s' c' : Prop :=
  toasts s' = toasts s ∧ cart s' ≠ cart s ∧ cart_content s' = Some c' ∧
  localStorage s' = Some (JSON_stringify c') ∧ wf s'.

(** The stock cell points to an empty mapping, which is also the one the
    previous cycle recorded, and no [loadStocks] is in flight. *)
Definition idle s : Prop :=
  stock_snapshot s = Some ∅ ∧ prevStockRef s = Some (stock s) ∧ loads s = 0.

(** The part of the store that belongs to React and to the effects: no
    handler writes it. *)
Definition hooks s :=
  (stocks s, stock s, prevCartRef s, prevStockRef s, cartDeps s,
   stockDeps s, localStorage s, loads s).

(** [m] leaves the hooks alone, however it completes. *)
Definition frames {A} (m : M (Store Meta) A) : Prop :=
  ∀ s, hooks (m s).2 = hooks s.

(** A fetch that rejects, or resolves with no payload. *)
Definition no_data {A} (r : Response A) : Prop :=
  r = Rejected ∨ r = Resolved None.

(** The cart as a plain list: what each operation does to the content,
    with the heap, the render and the cache left out. *)
Definition cart_step api op c : list (Product Meta) :=
  match op with
  | AddProduct productId =>
    match get_product api productId with
    | Resolved (Some q) =>
      match list_find (has_id productId) c with
      | None => c ++ [set_amount 1 q]
      | Some (i, p) =>
        match get_stock api productId with
        | Resolved (Some st) =>
          if bool_decide (amount p >= stock_amount st)%Z then c
          else <[i := set_amount (js_succ (amount p)) p]> c
        | _ => c
        end
      end
    | _ => c
    end
  | RemoveProduct productId =>
    match list_find (has_id productId) c with
    | Some (i, _) => delete i c
    | None => c
    end
  | UpdateProductAmount productId amount_ =>
    if bool_decide (amount_ < 1)%Z then c
    else
      match get_stock api productId with
      | Resolved (Some st) =>
        if bool_decide (stock_amount st < amount_)%Z then c
        else
          match list_find (has_id productId) c with
          | Some (i, p) => <[i := set_amount amount_ p]> c
          | None => c
          end
      | _ => c
      end
  end.

(** The messages an operation can hand to [toast.error]. *)
Definition messages_of op : list string :=
  match op with
  | AddProduct _ => [msg_add; msg_stock]
  | RemoveProduct _ => [msg_remove]
  | UpdateProductAmount _ _ => [msg_update; msg_stock]
  end.

(** A remote that answers a product query with the product asked for. *)
Definition honest api : Prop :=
  ∀ productId q, get_product api productId = Resolved (Some q) →
                 id q = productId.

(** A sequence of calls, each one against the remote as it is then. *)
Definition run (calls : list (Remote Meta * Operation)) s : Store Meta :=
  foldl (λ s call, perform call.1 call.2 s) s calls.

(** A store in which [loadStocks] has been called and [S n] requests are
    in flight: the cart is well formed, the render is over, and the effects
    have recorded the current stock cell. *)
Definition awaiting_stock (n : nat) s : Prop :=
  wf s ∧ prevStockRef s = Some (stock s) ∧
  fst <$> stockDeps s = Some (stock s) ∧ is_Some (stocks s !! stock s) ∧
  loads s = S n.

Definition unique_ids c : Prop := NoDup (id <$> c).

Definition amounts_positive c : Prop := Forall (λ p, 1 ≤ amount p)%Z c.

(** *** Numbers *)

(** Up to [2^53] in magnitude an integer is a double. *)
Lemma to_double_exact (x : Z) : (Z.abs x <= 2 ^ 53)%Z → to_double x = x.
Proof.
  intros Hx. unfold to_double.
  destruct (decide (Z.abs x = 2 ^ 53)%Z) as [Heq|Hne].
  - destruct (Z.abs_eq_or_opp x) as [Hx'|Hx']; rewrite Hx' in Heq.
    + by rewrite Heq.
    + assert (x = - 2 ^ 53)%Z as -> by lia. done.
  - case_bool_decide as Hk; [done|]. exfalso. apply Hk.
    destruct (decide (Z.abs x = 0)%Z) as [Hz|Hz]; [by rewrite Hz|].
    assert (Z.log2 (Z.abs x) < 53)%Z; [|lia].
    apply Z.log2_lt_pow2; lia.
Qed.

(** [amount++] adds exactly one up to [Number.MAX_SAFE_INTEGER]. *)
Lemma js_succ_exact (x : Z) :
  (- 2 ^ 53 <= x < 2 ^ 53)%Z → js_succ x = (x + 1)%Z.
Proof. intros Hx. apply to_double_exact. lia. Qed.

(** Rounding keeps a positive integer positive. *)
Lemma to_double_positive (x : Z) : (1 <= x)%Z → (1 <= to_double x)%Z.
Proof.
  intros Hx. unfold to_double. case_bool_decide as Hk; [done|].
  assert (Z.abs x = x) as Habs by lia. rewrite Habs in *. clear Habs.
  assert (Z.sgn x = 1)%Z as -> by lia. rewrite Z.mul_1_l.
  set (k := (Z.log2 x - 52)%Z) in *.
  assert (0 < k)%Z as Hkpos by lia.
  assert (1 <= Z.shiftr x k)%Z as Hq.
  { rewrite Z.shiftr_div_pow2 by lia.
    apply Z.div_le_lower_bound; [lia|]. rewrite Z.mul_1_r.
    etrans; [|apply (proj1 (Z.log2_spec x ltac:(lia)))].
    apply Z.pow_le_mono_r; lia. }
  assert (∀ y, 1 <= y → 1 <= Z.shiftl y k)%Z as Hshift.
  { intros y Hy. rewrite Z.shiftl_mul_pow2 by lia.
    assert (1 <= 2 ^ k)%Z by (apply (Z.pow_le_mono_r 2 0 k); lia). nia. }
  repeat case_match; apply Hshift; lia.
Qed.

Lemma js_succ_positive (x : Z) : (1 <= x)%Z → (1 <= js_succ x)%Z.
Proof. intros Hx. apply to_double_positive. lia. Qed.

(** At [2^53] the increment is lost. *)
Lemma js_succ_saturates : js_succ (2 ^ 53) = (2 ^ 53)%Z.
Proof. reflexivity. Qed.

Lemma mapM_holds objs l c : mapM (λ o, objs !! o) l = Some c ↔ holds objs l c.
Proof. apply mapM_Some. Qed.

Lemma holds_alloc objs l c q : holds objs l c → holds (objs ++ [q]) l c.
Proof.
  intros Hh. eapply Forall2_impl; [exact Hh|]. intros o p Ho.
  by apply lookup_app_l_Some.
Qed.

Lemma holds_fresh objs l c : holds objs l c → length objs ∉ l.
Proof.
  intros Hh Hin. apply list_elem_of_lookup in Hin as [i Hi].
  destruct (Forall2_lookup_l _ _ _ _ _ Hh Hi) as (p & _ & Hp).
  apply lookup_lt_Some in Hp. lia.
Qed.

Lemma holds_push objs l c q :
  holds objs l c → holds (objs ++ [q]) (l ++ [length objs]) (c ++ [q]).
Proof.
  intros Hh. apply Forall2_app; [by apply holds_alloc|].
  repeat constructor. by rewrite lookup_app_r, Nat.sub_diag.
Qed.

Lemma holds_write objs l c i o q :
  holds objs l c → NoDup l → l !! i = Some o →
  holds (<[o := q]> objs) l (<[i := q]> c).
Proof.
  intros Hh Hnd Hi. apply Forall2_same_length_lookup. split.
  - rewrite length_insert. by eapply Forall2_length.
  - intros j o' p' Hj Hp'.
    destruct (Forall2_lookup_l _ _ _ _ _ Hh Hj) as (p & Hcj & Hp).
    destruct (decide (j = i)) as [->|Hne].
    + assert (o' = o) as -> by congruence.
      rewrite list_lookup_insert_eq in Hp'
        by (by eapply lookup_lt_Some).
      rewrite list_lookup_insert_eq by (by eapply lookup_lt_Some).
      done.
    + rewrite list_lookup_insert_ne in Hp' by done.
      assert (o ≠ o') by (intros ->; by eapply Hne, NoDup_lookup).
      rewrite list_lookup_insert_ne by done. congruence.
Qed.

Lemma holds_delete objs l c i :
  holds objs l c → holds objs (delete i l) (delete i c).
Proof. apply Forall2_delete. Qed.

(** [find] and [findIndex] through the heap agree with a search of the
    content. *)
Lemma find_by_id_holds objs productId l c :
  holds objs l c →
  find_by_id objs productId l =
    Normal (match list_find (has_id productId) c with
            | Some (i, _) => l !! i
            | None => None
            end).
Proof.
  induction 1 as [|o p l c Ho _ IH]; simpl; [done|].
  rewrite Ho. unfold has_id at 1.
  destruct (decide (id p = productId)) as [Hid|Hid].
  - by rewrite bool_decide_eq_true_2.
  - rewrite bool_decide_eq_false_2 by done. rewrite IH.
    by destruct (list_find _ c) as [[i ?]|].
Qed.

Lemma findIndex_by_id_holds objs productId l c k :
  holds objs l c →
  findIndex_by_id objs productId l k =
    Normal (match list_find (has_id productId) c with
            | Some (i, _) => k + Z.of_nat i
            | None => -1
            end)%Z.
Proof.
  intros Hh. revert k.
  induction Hh as [|o p l c Ho _ IH]; intros k; simpl; [done|].
  rewrite Ho. unfold has_id at 1.
  destruct (decide (id p = productId)) as [Hid|Hid].
  - rewrite bool_decide_eq_true_2 by done. f_equal. lia.
  - rewrite bool_decide_eq_false_2 by done. rewrite IH.
    destruct (list_find _ c) as [[i ?]|]; simpl; [|done]. f_equal. lia.
Qed.

Lemma cart_content_at s l c : cart_at s l c → cart_content s = Some c.
Proof.
  intros (Hl & Hh & _). unfold cart_content. rewrite Hl.
  by apply mapM_holds.
Qed.

Lemma lookup_snoc {A} (xs : list A) x : (xs ++ [x]) !! length xs = Some x.
Proof. by apply list_lookup_middle. Qed.

Lemma insert_snoc {A} (xs : list A) x y :
  <[length xs := y]> (xs ++ [x]) = xs ++ [y].
Proof.
  rewrite insert_app_r_alt by lia. by rewrite Nat.sub_diag.
Qed.

(** *** Rendering *)

Lemma render_heap s :
  objects (render s) = objects s ∧ arrays (render s) = arrays s ∧
  stocks (render s) = stocks s ∧ cart (render s) = cart s ∧
  stock (render s) = stock s ∧ toasts (render s) = toasts s ∧
  dirty (render s) = dirty s.
Proof.
  unfold render, mirror, loadStocks_call.
  repeat case_match; simpl; done.
Qed.

Lemma render_prevRefs s :
  prevCartRef (render s) = Some (cart s) ∧
  prevStockRef (render s) = Some (stock s).
Proof.
  unfold render, mirror, loadStocks_call.
  repeat case_match; simpl; done.
Qed.

Lemma deps_unchanged last now : deps_changed last now = false → last = Some now.
Proof.
  destruct last as [d|]; simpl; [|done].
  intros Hd. apply bool_decide_eq_false in Hd. f_equal.
  by destruct (decide (d = now)).
Qed.

Lemma render_cartDeps s :
  cartDeps (render s) = Some (cart s, default (cart s) (prevCartRef s)).
Proof.
  unfold render, mirror, loadStocks_call.
  repeat case_match; simpl; try done; by apply deps_unchanged.
Qed.

Lemma render_stockDeps s :
  stockDeps (render s) = Some (stock s, default (stock s) (prevStockRef s)).
Proof.
  unfold render, mirror, loadStocks_call.
  repeat case_match; simpl; try done; by apply deps_unchanged.
Qed.

Lemma render_cart_content s : cart_content (render s) = cart_content s.
Proof.
  destruct (render_heap s) as (Ho & Ha & _ & Hc & _).
  unfold cart_content. by rewrite Ho, Ha, Hc.
Qed.

(** The second effect writes the cache when one of its dependencies has
    changed and the cart is not the one the previous cycle recorded. *)
Lemma render_localStorage s :
  let cartPreviousValue := default (cart s) (prevCartRef s) in
  localStorage (render s) =
    if deps_changed (cartDeps s) (cart s, cartPreviousValue)
       && bool_decide (cartPreviousValue ≠ cart s)
    then match cart_content s with
         | Some c => Some (JSON_stringify c)
         | None => localStorage s
         end
    else localStorage s.
Proof.
  assert (cart_content (with_prevRefs (Some (cart s)) (Some (stock s)) s)
          = cart_content s) as Hc by done.
  unfold render, mirror, loadStocks_call. rewrite Hc. simpl.
  repeat case_match; simpl in *; done.
Qed.

(** The third effect calls [loadStocks] when one of its dependencies has
    changed and the snapshot is not the one the previous cycle recorded. *)
Lemma render_loads s :
  let stockPreviousValue := default (stock s) (prevStockRef s) in
  loads (render s) =
    if deps_changed (stockDeps s) (stock s, stockPreviousValue)
       && bool_decide (stockPreviousValue ≠ stock s)
    then S (loads s)
    else loads s.
Proof.
  unfold render, mirror, loadStocks_call. simpl.
  destruct (deps_changed (stockDeps s) _) eqn:Hd;
    destruct (bool_decide (_ ≠ stock s)) eqn:Hne; simpl;
    repeat case_match; simpl in *; congruence.
Qed.

Lemma flush_idle s : dirty s = false → flush s = s.
Proof. unfold flush. by intros ->. Qed.

Lemma cart_at_render s l c : cart_at s l c → cart_at (render s) l c.
Proof.
  destruct (render_heap s) as (Ho & Ha & _ & Hc & _).
  unfold cart_at. by rewrite Ho, Ha, Hc.
Qed.

(** A handler that has replaced the cart: the render that follows mirrors
    the new cart to the cache. *)
Lemma committed_flush s s2 l' c' :
  settled s → dirty s2 = true → cart s2 ≠ cart s →
  prevCartRef s2 = prevCartRef s → cartDeps s2 = cartDeps s →
  toasts s2 = toasts s → cart_at s2 l' c' →
  committed s (flush s2) c'.
Proof.
  intros (_ & Hprev & Hdeps) Hd Hne Hp2 Hd2 Ht Hat.
  unfold flush. rewrite Hd. set (s3 := with_dirty false s2).
  assert (cart_at s3 l' c') as Hat3 by done.
  destruct (render_heap s3) as (Ho & Ha & _ & Hc & _ & Htoasts & Hdirty).
  destruct (render_prevRefs s3) as [Hpc _].
  pose proof (render_localStorage s3) as Hls. simpl in Hls.
  rewrite (cart_content_at _ _ _ Hat3), Hp2, Hprev, Hd2 in Hls. simpl in Hls.
  rewrite bool_decide_eq_true_2, andb_true_r in Hls by done.
  assert (deps_changed (cartDeps s) (cart s2, cart s) = true) as Hch.
  { destruct (cartDeps s) as [[a b]|]; simpl in *; [|done].
    apply bool_decide_eq_true_2. congruence. }
  rewrite Hch in Hls.
  split_and!.
  - by rewrite Htoasts.
  - by rewrite Hc.
  - rewrite render_cart_content. by apply cart_content_at in Hat3.
  - done.
  - split; [eauto using cart_at_render|]. split_and!.
    + by rewrite Hdirty.
    + by rewrite Hpc, Hc.
    + by rewrite render_cartDeps, Hc.
Qed.

(** A handler that has only called [toast.error] and left garbage in the
    heap: nothing is rendered and the cart is as before. *)
Lemma failure_flush s l c msg objs' arrs' :
  cart_at s l c → settled s →
  failure s
    (flush (with_toasts (msg :: toasts s)
       (with_objects (objects s ++ objs') (with_arrays (arrays s ++ arrs') s))))
    msg.
Proof.
  intros Hat (Hd & Hprev & Hdeps). rewrite flush_idle by done.
  assert (cart_at (with_toasts (msg :: toasts s)
       (with_objects (objects s ++ objs') (with_arrays (arrays s ++ arrs') s)))
       l c) as Hat'.
  { destruct Hat as (Hl & Hh & Hnd). split_and!; simpl; [|clear Hl|done].
    - by apply lookup_app_l_Some.
    - eapply Forall2_impl; [exact Hh|]. intros o p Ho.
      by apply lookup_app_l_Some. }
  split_and!; try done.
  - by rewrite (cart_content_at _ _ _ Hat), (cart_content_at _ _ _ Hat').
  - split; [eauto|done].
Qed.

(** *** What each operation leaves behind, before React renders again *)

Ltac unfold_js :=
  unfold addProduct, removeProduct, updateProductAmount, getProduct, getStock,
    try_catch, spread, spread_push, array_find, array_findIndex, splice1,
    write_amount, read_object, read_array, new_object, new_array, setCart,
    toast_error, await, bind, gets, modify, defined, ret, throw.

Lemma list_find_holds productId objs l c i p :
  holds objs l c → list_find (has_id productId) c = Some (i, p) →
  ∃ o, l !! i = Some o ∧ objs !! o = Some p ∧ c !! i = Some p.
Proof.
  intros Hh Hfind. apply list_find_Some in Hfind as (Hi & _ & _).
  destruct (Forall2_lookup_r _ _ _ _ _ Hh Hi) as (o & Ho & Hp). eauto.
Qed.

Lemma removeProduct_found productId s l c i p :
  cart_at s l c → list_find (has_id productId) c = Some (i, p) →
  removeProduct productId s =
    (Normal tt,
     with_dirty true (with_cart (length (arrays s))
       (with_arrays (arrays s ++ [delete i l]) s))).
Proof.
  intros (Hl & Hh & Hnd) Hfind. unfold_js.
  rewrite Hl. simpl. rewrite lookup_snoc. simpl.
  rewrite (findIndex_by_id_holds _ _ _ _ _ Hh), Hfind.
  rewrite bool_decide_eq_false_2 by lia. simpl.
  rewrite lookup_snoc. simpl. rewrite insert_snoc.
  rewrite Z.add_0_l, Nat2Z.id.
  apply lookup_lt_Some in Hl. destruct (decide _); [lia|]. done.
Qed.

Lemma removeProduct_missing productId s l c :
  cart_at s l c → list_find (has_id productId) c = None →
  removeProduct productId s =
    (Normal tt,
     with_toasts (msg_remove :: toasts s) (with_arrays (arrays s ++ [l]) s)).
Proof.
  intros (Hl & Hh & Hnd) Hfind. unfold_js.
  rewrite Hl. simpl. rewrite lookup_snoc. simpl.
  rewrite (findIndex_by_id_holds _ _ _ _ _ Hh), Hfind.
  rewrite bool_decide_eq_true_2 by lia. done.
Qed.

Lemma addProduct_unresolved api productId s l c :
  cart_at s l c → no_data (get_product api productId) →
  addProduct api productId s =
    (Normal tt,
     with_toasts (msg_add :: toasts s) (with_arrays (arrays s ++ [l]) s)).
Proof.
  intros (Hl & Hh & Hnd) [Hr|Hr]; unfold_js; rewrite Hl; simpl;
    by rewrite Hr.
Qed.

Lemma addProduct_new api productId s l c q :
  cart_at s l c → get_product api productId = Resolved (Some q) →
  list_find (has_id productId) c = None →
  addProduct api productId s =
    (Normal tt,
     with_dirty true (with_cart (S (length (arrays s)))
       (with_arrays (arrays s ++ [l; l ++ [length (objects s)]])
         (with_objects (objects s ++ [set_amount 1 q]) s)))).
Proof.
  intros (Hl & Hh & Hnd) Hr Hfind. unfold_js.
  rewrite Hl. simpl. rewrite Hr. simpl. rewrite lookup_snoc. simpl.
  rewrite (find_by_id_holds _ _ _ _ (holds_alloc _ _ _ q Hh)), Hfind. simpl.
  rewrite lookup_snoc. simpl. rewrite lookup_snoc. simpl.
  rewrite insert_snoc, length_app. simpl.
  apply lookup_lt_Some in Hl. destruct (decide _); [lia|].
  rewrite <- (assoc_L (++)). by rewrite Nat.add_1_r.
Qed.

Lemma addProduct_stock_failed api productId s l c q i p :
  cart_at s l c → get_product api productId = Resolved (Some q) →
  list_find (has_id productId) c = Some (i, p) →
  no_data (get_stock api productId) →
  addProduct api productId s =
    (Normal tt,
     with_toasts (msg_add :: toasts s)
       (with_objects (objects s ++ [q]) (with_arrays (arrays s ++ [l]) s))).
Proof.
  intros (Hl & Hh & Hnd) Hr Hfind Hst.
  destruct (list_find_holds _ _ _ _ _ _ Hh Hfind) as (o & Ho & Hp & _).
  destruct Hst as [Hst|Hst]; unfold_js; rewrite Hl; simpl; rewrite Hr; simpl;
    rewrite lookup_snoc; simpl;
    rewrite (find_by_id_holds _ _ _ _ (holds_alloc _ _ _ q Hh)), Hfind, Ho;
    simpl; by rewrite Hst.
Qed.

Lemma addProduct_exhausted api productId s l c q i p st :
  cart_at s l c → get_product api productId = Resolved (Some q) →
  list_find (has_id productId) c = Some (i, p) →
  get_stock api productId = Resolved (Some st) →
  (amount p >= stock_amount st)%Z →
  addProduct api productId s =
    (Normal tt,
     with_toasts (msg_stock :: toasts s)
       (with_objects (objects s ++ [q]) (with_arrays (arrays s ++ [l]) s))).
Proof.
  intros (Hl & Hh & Hnd) Hr Hfind Hst Hge.
  destruct (list_find_holds _ _ _ _ _ _ Hh Hfind) as (o & Ho & Hp & _).
  unfold_js. rewrite Hl. simpl. rewrite Hr. simpl. rewrite lookup_snoc. simpl.
  rewrite (find_by_id_holds _ _ _ _ (holds_alloc _ _ _ q Hh)), Hfind, Ho.
  simpl. rewrite Hst. simpl.
  rewrite (lookup_app_l_Some _ _ _ _ Hp). simpl.
  by rewrite bool_decide_eq_true_2.
Qed.

Lemma addProduct_increment api productId s l c q i p o st :
  cart_at s l c → get_product api productId = Resolved (Some q) →
  list_find (has_id productId) c = Some (i, p) → l !! i = Some o →
  get_stock api productId = Resolved (Some st) →
  (amount p < stock_amount st)%Z →
  addProduct api productId s =
    (Normal tt,
     with_dirty true (with_cart (length (arrays s))
       (with_objects
          (<[o := set_amount (js_succ (amount p)) p]> (objects s ++ [q]))
          (with_arrays (arrays s ++ [l]) s)))).
Proof.
  intros (Hl & Hh & Hnd) Hr Hfind Ho Hst Hlt.
  destruct (list_find_holds _ _ _ _ _ _ Hh Hfind) as (o' & Ho' & Hp & _).
  assert (o' = o) as -> by congruence.
  unfold_js. rewrite Hl. simpl. rewrite Hr. simpl. rewrite lookup_snoc. simpl.
  rewrite (find_by_id_holds _ _ _ _ (holds_alloc _ _ _ q Hh)), Hfind, Ho.
  simpl. rewrite Hst. simpl.
  rewrite (lookup_app_l_Some _ _ _ _ Hp). simpl.
  rewrite bool_decide_eq_false_2 by lia. simpl.
  rewrite (lookup_app_l_Some _ _ _ _ Hp). simpl.
  apply lookup_lt_Some in Hl. destruct (decide _); [lia|]. done.
Qed.

Lemma updateProductAmount_invalid api productId amount_ s :
  (amount_ < 1)%Z →
  updateProductAmount api productId amount_ s =
    (Normal tt, with_toasts (msg_update :: toasts s) s).
Proof. intros Hlt. unfold_js. by rewrite bool_decide_eq_true_2. Qed.

Lemma updateProductAmount_stock_failed api productId amount_ s :
  (1 <= amount_)%Z → no_data (get_stock api productId) →
  updateProductAmount api productId amount_ s =
    (Normal tt, with_toasts (msg_update :: toasts s) s).
Proof.
  intros Hle [Hst|Hst]; unfold_js; rewrite bool_decide_eq_false_2 by lia;
    by rewrite Hst.
Qed.

Lemma updateProductAmount_exceeds api productId amount_ s st :
  (1 <= amount_)%Z → get_stock api productId = Resolved (Some st) →
  (stock_amount st < amount_)%Z →
  updateProductAmount api productId amount_ s =
    (Normal tt, with_toasts (msg_stock :: toasts s) s).
Proof.
  intros Hle Hst Hlt. unfold_js. rewrite bool_decide_eq_false_2 by lia.
  rewrite Hst. simpl. by rewrite bool_decide_eq_true_2.
Qed.

Lemma updateProductAmount_missing api productId amount_ s l c st :
  cart_at s l c →
  (1 <= amount_)%Z → get_stock api productId = Resolved (Some st) →
  (amount_ <= stock_amount st)%Z →
  list_find (has_id productId) c = None →
  updateProductAmount api productId amount_ s =
    (Normal tt,
     with_toasts (msg_update :: toasts s) (with_arrays (arrays s ++ [l]) s)).
Proof.
  intros (Hl & Hh & Hnd) Hle Hst Hok Hfind. unfold_js.
  rewrite bool_decide_eq_false_2 by lia. rewrite Hst. simpl.
  rewrite bool_decide_eq_false_2 by lia. rewrite Hl. simpl.
  rewrite lookup_snoc. simpl.
  by rewrite (find_by_id_holds _ _ _ _ Hh), Hfind.
Qed.

Lemma updateProductAmount_set api productId amount_ s l c st i p o :
  cart_at s l c →
  (1 <= amount_)%Z → get_stock api productId = Resolved (Some st) →
  (amount_ <= stock_amount st)%Z →
  list_find (has_id productId) c = Some (i, p) → l !! i = Some o →
  updateProductAmount api productId amount_ s =
    (Normal tt,
     with_dirty true (with_cart (length (arrays s))
       (with_objects (<[o := set_amount amount_ p]> (objects s))
          (with_arrays (arrays s ++ [l]) s)))).
Proof.
  intros (Hl & Hh & Hnd) Hle Hst Hok Hfind Ho.
  destruct (list_find_holds _ _ _ _ _ _ Hh Hfind) as (o' & Ho' & Hp & _).
  assert (o' = o) as -> by congruence.
  unfold_js.
  rewrite bool_decide_eq_false_2 by lia. rewrite Hst. simpl.
  rewrite bool_decide_eq_false_2 by lia. rewrite Hl. simpl.
  rewrite lookup_snoc. simpl.
  rewrite (find_by_id_holds _ _ _ _ Hh), Hfind, Ho. simpl. rewrite Hp. simpl.
  apply lookup_lt_Some in Hl. destruct (decide _); [lia|]. done.
Qed.

(** *** The frame of the handlers *)

Lemma frames_ret {A} (a : A) : frames (ret a).
Proof. done. Qed.

Lemma frames_throw {A} : frames (throw (A := A)).
Proof. done. Qed.

Lemma frames_gets {A} (f : Store Meta → A) : frames (gets f).
Proof. done. Qed.

Lemma frames_defined {A} (o : option A) : frames (defined o).
Proof. by destruct o. Qed.

Lemma frames_await {A} (r : Response A) : frames (await r).
Proof. by destruct r. Qed.

Lemma frames_modify (f : Store Meta → Store Meta) :
  (∀ s, hooks (f s) = hooks s) → frames (modify f).
Proof. intros Hf s. apply Hf. Qed.

Lemma frames_bind {A B} (m : M (Store Meta) A) (k : A → M (Store Meta) B) :
  frames m → (∀ a, frames (k a)) → frames (bind m k).
Proof.
  intros Hm Hk s. unfold bind. specialize (Hm s).
  destruct (m s) as [[a|] s1]; simpl in *; [|done].
  by rewrite Hk.
Qed.

Lemma frames_try_catch {A} (m h : M (Store Meta) A) :
  frames m → frames h → frames (try_catch m h).
Proof.
  intros Hm Hh s. unfold try_catch. specialize (Hm s).
  destruct (m s) as [[a|] s1]; simpl in *; [done|].
  by rewrite Hh.
Qed.

Lemma frames_if {A} (b : bool) (m1 m2 : M (Store Meta) A) :
  frames m1 → frames m2 → frames (if b then m1 else m2).
Proof. by destruct b. Qed.

Lemma frames_new_object p : frames (new_object p).
Proof. done. Qed.

Lemma frames_new_array l : frames (new_array l).
Proof. done. Qed.

Lemma frames_toast_error msg : frames (toast_error msg).
Proof. done. Qed.

Lemma frames_setCart a : frames (setCart a).
Proof. intros s. unfold setCart, modify. simpl. by case_decide. Qed.

Create HintDb frames.
#[local] Hint Resolve frames_ret frames_throw frames_gets frames_defined
  frames_await frames_new_object frames_new_array frames_toast_error
  frames_setCart frames_if : frames.

Ltac frames :=
  repeat first
    [ apply frames_try_catch
    | apply frames_bind; [|intros ?]
    | apply frames_modify; intros ?; reflexivity
    | solve [auto with frames]
    | match goal with
      | |- frames (λ s, (_, s)) => intros ?; reflexivity
      | |- frames (match ?x with _ => _ end) => destruct x
      end ].

Lemma frames_read_object o : frames (read_object o).
Proof. unfold read_object. frames. Qed.

Lemma frames_read_array a : frames (read_array a).
Proof. unfold read_array. frames. Qed.

#[local] Hint Resolve frames_read_object frames_read_array : frames.

Lemma frames_write_amount o v : frames (write_amount o v).
Proof. unfold write_amount. frames. Qed.

Lemma frames_splice1 a i : frames (splice1 a i).
Proof. unfold splice1. frames. Qed.

Lemma frames_spread a : frames (spread a).
Proof. unfold spread. frames. Qed.

Lemma frames_spread_push a o : frames (spread_push a o).
Proof. unfold spread_push. frames. Qed.

Lemma frames_array_find a productId : frames (array_find a productId).
Proof. unfold array_find. frames. Qed.

Lemma frames_array_findIndex a productId :
  frames (array_findIndex a productId).
Proof. unfold array_findIndex. frames. Qed.

Lemma frames_getProduct api productId : frames (getProduct api productId).
Proof. unfold getProduct. frames. Qed.

Lemma frames_getStock api productId : frames (getStock api productId).
Proof. unfold getStock. frames. Qed.

#[local] Hint Resolve frames_write_amount frames_splice1 frames_spread
  frames_spread_push frames_array_find frames_array_findIndex
  frames_getProduct frames_getStock : frames.

Lemma frames_addProduct api productId : frames (addProduct api productId).
Proof. unfold addProduct. frames. Qed.

Lemma frames_removeProduct productId : frames (removeProduct productId).
Proof. unfold removeProduct. frames. Qed.

Lemma frames_updateProductAmount api productId amount_ :
  frames (updateProductAmount api productId amount_).
Proof. unfold updateProductAmount. frames. Qed.

(** *** Outcomes of the three operations *)

Lemma removeProduct_outcome productId s l c :
  cart_at s l c → settled s →
  let s' := invoke (removeProduct productId) s in
  match list_find (has_id productId) c with
  | None => failure s s' msg_remove
  | Some (i, _) => committed s s' (delete i c)
  end.
Proof.
  intros Hat Hs. simpl. unfold invoke.
  destruct (list_find _ c) as [[i p]|] eqn:Hfind.
  - rewrite (removeProduct_found _ _ _ _ _ _ Hat Hfind). simpl.
    destruct Hat as (Hl & Hh & Hnd).
    eapply committed_flush with (l' := delete i l); try done.
    + simpl. apply lookup_lt_Some in Hl. lia.
    + split_and!; simpl.
      * apply lookup_snoc.
      * by apply holds_delete.
      * eapply sublist_NoDup; [done|apply sublist_delete].
  - rewrite (removeProduct_missing _ _ _ _ Hat Hfind). simpl.
    pose proof (failure_flush s l c msg_remove [] [l] Hat Hs) as Hf.
    by rewrite app_nil_r in Hf.
Qed.

Lemma addProduct_outcome api productId s l c :
  cart_at s l c → settled s →
  let s' := invoke (addProduct api productId) s in
  match get_product api productId with
  | Resolved (Some q) =>
    match list_find (has_id productId) c with
    | None => committed s s' (c ++ [set_amount 1 q])
    | Some (i, p) =>
      match get_stock api productId with
      | Resolved (Some st) =>
        if bool_decide (amount p >= stock_amount st)%Z
        then failure s s' msg_stock
        else committed s s' (<[i := set_amount (js_succ (amount p)) p]> c)
      | _ => failure s s' msg_add
      end
    end
  | _ => failure s s' msg_add
  end.
Proof.
  intros Hat Hs. simpl. unfold invoke.
  assert (∀ msg, failure s (flush (with_toasts (msg :: toasts s)
            (with_arrays (arrays s ++ [l]) s))) msg) as Hfail1.
  { intros msg. pose proof (failure_flush s l c msg [] [l] Hat Hs) as Hf.
    by rewrite app_nil_r in Hf. }
  destruct (get_product api productId) as [|[q|]] eqn:Hr.
  - rewrite (addProduct_unresolved _ _ _ _ _ Hat) by (rewrite Hr; by left).
    apply Hfail1.
  - destruct (list_find _ c) as [[i p]|] eqn:Hfind.
    + destruct (get_stock api productId) as [|[st|]] eqn:Hst.
      * rewrite (addProduct_stock_failed _ _ _ _ _ q i p Hat Hr Hfind)
          by (rewrite Hst; by left).
        by apply (failure_flush s l c msg_add [q] [l]).
      * case_bool_decide as Hge.
        -- rewrite (addProduct_exhausted _ _ _ _ _ q i p st Hat Hr Hfind Hst)
             by done.
           by apply (failure_flush s l c msg_stock [q] [l]).
        -- destruct Hat as (Hl & Hh & Hnd).
           destruct (list_find_holds _ _ _ _ _ _ Hh Hfind) as (o & Ho & _).
           rewrite (addProduct_increment _ _ _ l c q i p o st) by (done || lia).
           eapply committed_flush with (l' := l); try done.
           ++ simpl. apply lookup_lt_Some in Hl. lia.
           ++ split_and!; simpl; [apply lookup_snoc| |done].
              apply holds_write; [by apply holds_alloc|done..].
      * rewrite (addProduct_stock_failed _ _ _ _ _ q i p Hat Hr Hfind)
          by (rewrite Hst; by right).
        by apply (failure_flush s l c msg_add [q] [l]).
    + rewrite (addProduct_new _ _ _ _ _ q Hat Hr Hfind).
      destruct Hat as (Hl & Hh & Hnd).
      eapply committed_flush with (l' := l ++ [length (objects s)]); try done.
      * simpl. apply lookup_lt_Some in Hl. lia.
      * split_and!; simpl.
        -- change (arrays s ++ [l; l ++ [length (objects s)]])
             with (arrays s ++ [l] ++ [l ++ [length (objects s)]]).
           rewrite (assoc_L (++)). apply list_lookup_middle.
           rewrite length_app. simpl. lia.
        -- by apply holds_push.
        -- apply NoDup_app. split_and!; [done| |apply NoDup_singleton].
           intros o Ho ->%list_elem_of_singleton.
           by eapply holds_fresh.
  - rewrite (addProduct_unresolved _ _ _ _ _ Hat) by (rewrite Hr; by right).
    apply Hfail1.
Qed.

Lemma updateProductAmount_outcome api productId amount_ s l c :
  cart_at s l c → settled s →
  let s' := invoke (updateProductAmount api productId amount_) s in
  if bool_decide (amount_ < 1)%Z then failure s s' msg_update
  else
    match get_stock api productId with
    | Resolved (Some st) =>
      if bool_decide (stock_amount st < amount_)%Z
      then failure s s' msg_stock
      else
        match list_find (has_id productId) c with
        | None => failure s s' msg_update
        | Some (i, p) => committed s s' (<[i := set_amount amount_ p]> c)
        end
    | _ => failure s s' msg_update
    end.
Proof.
  intros Hat Hs. simpl. unfold invoke.
  assert (∀ msg, failure s (flush (with_toasts (msg :: toasts s) s)) msg)
    as Hfail0.
  { intros msg.
    pose proof (failure_flush s l c msg [] [] Hat Hs) as Hf.
    by rewrite !app_nil_r in Hf. }
  case_bool_decide as Hlt.
  { rewrite updateProductAmount_invalid by done. apply Hfail0. }
  destruct (get_stock api productId) as [|[st|]] eqn:Hst.
  - rewrite updateProductAmount_stock_failed
      by (lia || rewrite Hst; by left).
    apply Hfail0.
  - case_bool_decide as Hex.
    { rewrite (updateProductAmount_exceeds _ _ _ _ st) by (done || lia).
      apply Hfail0. }
    destruct (list_find _ c) as [[i p]|] eqn:Hfind.
    + destruct Hat as (Hl & Hh & Hnd).
      destruct (list_find_holds _ _ _ _ _ _ Hh Hfind) as (o & Ho & _).
      rewrite (updateProductAmount_set _ _ _ _ l c st i p o)
        by (done || lia).
      eapply committed_flush with (l' := l); try done.
      * simpl. apply lookup_lt_Some in Hl. lia.
      * split_and!; simpl; [apply lookup_snoc| |done].
        by apply holds_write.
    + rewrite (updateProductAmount_missing _ _ _ _ l c st)
        by (done || lia).
      pose proof (failure_flush s l c msg_update [] [l] Hat Hs) as Hf.
      by rewrite app_nil_r in Hf.
  - rewrite updateProductAmount_stock_failed
      by (lia || rewrite Hst; by right).
    apply Hfail0.
Qed.

(** *** Invariants of the reachable stores *)

Lemma holds_seq c : holds c (seq 0 (length c)) c.
Proof.
  apply Forall2_same_length_lookup. split; [by rewrite length_seq|].
  intros i o p [-> _]%lookup_seq Hp. done.
Qed.

Lemma mount_wf slot s : mount slot = Normal (Typed s) → wf s.
Proof.
  unfold mount, first_render.
  destruct (initial_cart slot) as [[c|v]|]; [|done..].
  intros [= <-]. split.
  - exists (seq 0 (length c)), c. apply cart_at_render.
    split_and!; [done|apply holds_seq|apply NoDup_seq].
  - destruct (render_heap
      (mkStore c [seq 0 (length c)] [∅] 0 0 None None None None slot [] 0
         false)) as (_ & _ & _ & Hc & _ & _ & Hd).
    split_and!.
    + by rewrite Hd.
    + by rewrite (proj1 (render_prevRefs _)), Hc.
    + by rewrite render_cartDeps, Hc.
Qed.

Lemma mount_idle slot s : mount slot = Normal (Typed s) → idle s.
Proof.
  unfold mount, first_render.
  destruct (initial_cart slot) as [[c|v]|]; [|done..].
  intros [= <-].
  set (s0 := mkStore c [seq 0 (length c)] [∅] 0 0 None None None None slot []
               0 false).
  destruct (render_heap s0) as (_ & _ & Hk & _ & Hst & _).
  split_and!.
  - unfold stock_snapshot. by rewrite Hk, Hst.
  - by rewrite (proj2 (render_prevRefs _)), Hst.
  - by rewrite render_loads.
Qed.

Lemma failure_wf s s' msg : failure s s' msg → wf s'.
Proof. by intros (_ & _ & _ & _ & Hwf). Qed.

Lemma committed_wf s s' c' : committed s s' c' → wf s'.
Proof. by intros (_ & _ & _ & _ & Hwf). Qed.

Lemma perform_wf api op s : wf s → wf (perform api op s).
Proof.
  intros [(l & c & Hat) Hs]. destruct op as [productId|productId|productId a].
  - pose proof (addProduct_outcome api productId s l c Hat Hs) as Ho.
    simpl in *. repeat case_match; eauto using failure_wf, committed_wf.
  - pose proof (removeProduct_outcome productId s l c Hat Hs) as Ho.
    simpl in *. repeat case_match; eauto using failure_wf, committed_wf.
  - pose proof (updateProductAmount_outcome api productId a s l c Hat Hs)
      as Ho.
    simpl in *. repeat case_match; eauto using failure_wf, committed_wf.
Qed.

Lemma frames_perform api op s :
  ∃ s2, perform api op s = flush s2 ∧ hooks s2 = hooks s.
Proof.
  destruct op as [productId|productId|productId a]; simpl; unfold invoke;
    eexists; (split; [reflexivity|]).
  - apply frames_addProduct.
  - apply frames_removeProduct.
  - apply frames_updateProductAmount.
Qed.

Lemma flush_idle_inv s : idle s → idle (flush s).
Proof.
  intros (Hsnap & Hprev & Hloads). unfold flush.
  destruct (dirty s); [|done].
  set (s3 := with_dirty false s).
  destruct (render_heap s3) as (_ & _ & Hk & _ & Hst & _).
  split_and!.
  - unfold stock_snapshot. by rewrite Hk, Hst.
  - by rewrite (proj2 (render_prevRefs _)), Hst.
  - rewrite render_loads. simpl. rewrite Hprev. simpl.
    rewrite bool_decide_eq_false_2 by naive_solver.
    by rewrite andb_false_r.
Qed.

Lemma hooks_idle s s2 : hooks s2 = hooks s → idle s → idle s2.
Proof.
  unfold hooks, idle, stock_snapshot. intros [= -> -> _ -> _ _ _ ->]. done.
Qed.

Lemma perform_idle api op s : idle s → idle (perform api op s).
Proof.
  intros Hi. destruct (frames_perform api op s) as (s2 & -> & Hh).
  eauto using flush_idle_inv, hooks_idle.
Qed.

Lemma stock_listing_idle r s : idle s → stock_listing r s = s.
Proof. intros (_ & _ & Hloads). unfold stock_listing. by rewrite Hloads. Qed.

Lemma reachable_inv s : reachable s → wf s ∧ idle s.
Proof.
  induction 1 as [slot s Hm|e s _ [Hwf Hidle]].
  - eauto using mount_wf, mount_idle.
  - destruct e as [api op|r]; simpl.
    + eauto using perform_wf, perform_idle.
    + by rewrite stock_listing_idle.
Qed.

Lemma reachable_cart s :
  reachable s → ∃ l c, cart_at s l c ∧ settled s ∧ cart_content s = Some c.
Proof.
  intros [[(l & c & Hat) Hs] _]%reachable_inv.
  eauto 6 using cart_content_at.
Qed.

Lemma cart_at_content s l c c' :
  cart_at s l c → cart_content s = Some c' → c' = c.
Proof. intros Hat Hc. apply cart_content_at in Hat. congruence. Qed.

Lemma failure_signals s s' msg : failure s s' msg → signals_failure s s'.
Proof.
  intros (Ht & _). unfold signals_failure. rewrite Ht.
  intros Heq. apply (f_equal length) in Heq. simpl in Heq. lia.
Qed.

Lemma committed_silent s s' c' : committed s s' c' → ¬ signals_failure s s'.
Proof. intros (Ht & _) Hs. by apply Hs. Qed.

(** Every call ends in one of the two outcomes. *)
Lemma perform_outcome api op s :
  reachable s →
  (∃ msg, failure s (perform api op s) msg) ∨
  (∃ c', committed s (perform api op s) c').
Proof.
  intros (l & c & Hat & Hs & _)%reachable_cart.
  destruct op as [productId|productId|productId a]; simpl.
  - pose proof (addProduct_outcome api productId s l c Hat Hs) as Ho.
    simpl in Ho. repeat case_match; eauto.
  - pose proof (removeProduct_outcome productId s l c Hat Hs) as Ho.
    simpl in Ho. repeat case_match; eauto.
  - pose proof (updateProductAmount_outcome api productId a s l c Hat Hs)
      as Ho.
    simpl in Ho. repeat case_match; eauto.
Qed.

(** ** The claims *)

(** C2.  Atomicity on failure: whenever [addProduct], [removeProduct] or
    [updateProductAmount], called in a reachable store, signals a failure
    (calls [toast.error], whatever the cause), the cart cell still holds the
    same array, the content of the cart is what it was, and the cache slot
    has not been written. *)
Theorem failure_leaves_cart_unchanged api op s :
  reachable s →
  signals_failure s (perform api op s) →
  cart (perform api op s) = cart s ∧
  cart_content (perform api op s) = cart_content s ∧
  localStorage (perform api op s) = localStorage s.
Proof.
  intros Hr Hsig.
  destruct (perform_outcome api op s Hr) as [[msg Hf]|[c' Hc]].
  - by destruct Hf as (_ & ? & ? & ? & _).
  - by apply committed_silent in Hc.
Qed.

Lemma first_render_content slot c :
  cart_content (first_render slot c) = Some c ∧
  localStorage (first_render slot c) = slot.
Proof.
  unfold first_render. split.
  - rewrite render_cart_content. apply (cart_content_at _ (seq 0 (length c))).
    split_and!; [done|apply holds_seq|apply NoDup_seq].
  - by rewrite render_localStorage.
Qed.

(** C3, in the form the code supports.  At store creation the cart is read
    from the cache slot.  An absent slot, or one holding the empty string,
    gives the empty cart.  A slot whose text is valid JSON gives what the
    text denotes: that cart when it is an array of products, and otherwise
    that other value, with which the component is mounted as its cart.  A
    slot whose non-empty text is not valid JSON makes the initialiser
    throw: no store is created.  Nothing falls back to the empty cart, and
    mounting never writes the slot. *)
Theorem mount_initial_cart slot :
  match slot with
  | None =>
    ∃ s, mount slot = Normal (Typed s) ∧ cart_content s = Some [] ∧
         localStorage s = slot
  | Some text =>
    if bool_decide (text = EmptyString) then
      ∃ s, mount slot = Normal (Typed s) ∧ cart_content s = Some [] ∧
           localStorage s = slot
    else
      match JSON_parse text with
      | Some (IsCart c) =>
        ∃ s, mount slot = Normal (Typed s) ∧ cart_content s = Some c ∧
             localStorage s = slot
      | Some (NotCart v) => mount slot = Normal (Untyped v)
      | None => mount slot = Thrown
      end
  end.
Proof.
  assert (∀ c, initial_cart slot = Normal (IsCart c) →
    ∃ s, mount slot = Normal (Typed s) ∧ cart_content s = Some c ∧
         localStorage s = slot) as Hok.
  { intros c Hc. unfold mount. rewrite Hc. eexists. split; [done|].
    apply first_render_content. }
  destruct slot as [text|]; [|by apply Hok].
  case_bool_decide as Hempty.
  - apply Hok. simpl. by rewrite bool_decide_eq_false_2 by naive_solver.
  - destruct (JSON_parse text) as [[c|v]|] eqn:Hp.
    + apply Hok. simpl. by rewrite bool_decide_eq_true_2, Hp.
    + unfold mount. simpl. by rewrite bool_decide_eq_true_2, Hp.
    + unfold mount. simpl. by rewrite bool_decide_eq_true_2, Hp.
Qed.


(** C5.  Persistence mirror: provided parsing undoes serialising, after
    every operation that completes without signalling a failure the cache
    slot holds a text that parses to the content of the in-memory cart.
    And whatever the outcome, the slot holds either what it held before the
    call or the text of the cart as it stands after the call. *)
Theorem cache_mirrors_cart api op s :
  (∀ c, JSON_parse (JSON_stringify c) = Some (IsCart c)) →
  reachable s →
  let s' := perform api op s in
  (¬ signals_failure s s' →
   ∃ text, localStorage s' = Some text ∧
           JSON_parse text = IsCart <$> cart_content s') ∧
  (localStorage s' = localStorage s ∨
   ∃ c', cart_content s' = Some c' ∧
         localStorage s' = Some (JSON_stringify c')).
Proof.
  intros Hround Hr. simpl.
  destruct (perform_outcome api op s Hr) as [[msg Hf]|[c' Hc]].
  - split.
    + intros Hsil. by apply failure_signals in Hf.
    + left. by destruct Hf as (_ & _ & _ & ? & _).
  - destruct Hc as (_ & _ & Hc' & Hls & _). split; [|eauto].
    intros _. exists (JSON_stringify c'). by rewrite Hc', Hround.
Qed.

(** C6.  Invalid amount floor: [updateProductAmount] with an amount below
    one only calls [toast.error] with the could-not-update message; the
    store is otherwise exactly as it was, so the cart, its content and the
    cache are unchanged.  Amount zero is such a call: it removes nothing. *)
Theorem updateProductAmount_below_one api productId amount_ s :
  reachable s →
  (amount_ < 1)%Z →
  let s' := perform api (UpdateProductAmount productId amount_) s in
  s' = with_toasts (msg_update :: toasts s) s ∧
  signals s s' msg_update ∧ cart s' = cart s ∧
  cart_content s' = cart_content s ∧ localStorage s' = localStorage s.
Proof.
  intros (l & c & _ & (Hd & _) & _)%reachable_cart Hlt. simpl.
  unfold invoke. rewrite updateProductAmount_invalid by done. simpl.
  by rewrite flush_idle.
Qed.

(** C7.  [removeProduct]: when no line item of the cart has the given
    product id, the could-not-remove message is signalled and the cart (its
    array, its content, hence its length) and the cache are unchanged; when
    one has, the first such line item is deleted, the others keep their
    relative order, nothing is signalled and the new cart is committed and
    mirrored. *)
Theorem removeProduct_spec productId s :
  reachable s →
  let s' := invoke (removeProduct productId) s in
  ∃ c, cart_content s = Some c ∧
    match list_find (has_id productId) c with
    | None =>
      signals s s' msg_remove ∧ cart s' = cart s ∧ cart_content s' = Some c ∧
      localStorage s' = localStorage s
    | Some (i, _) =>
      toasts s' = toasts s ∧ cart s' ≠ cart s ∧
      cart_content s' = Some (take i c ++ drop (S i) c) ∧
      localStorage s' = Some (JSON_stringify (take i c ++ drop (S i) c))
    end.
Proof.
  intros (l & c & Hat & Hs & Hc)%reachable_cart. simpl. exists c.
  split; [done|].
  pose proof (removeProduct_outcome productId s l c Hat Hs) as Ho.
  simpl in Ho. destruct (list_find _ c) as [[i p]|].
  - rewrite <- delete_take_drop. by destruct Ho as (? & ? & ? & ? & _).
  - destruct Ho as (? & ? & Hc' & ? & _). unfold signals.
    by rewrite Hc', Hc.
Qed.

(** C8.  In every reachable store the stock snapshot is the empty mapping:
    the snapshot the previous cycle recorded is the current one, so the
    effect never calls [loadStocks], and no [loadStocks] is ever in flight
    to replace it. *)
Theorem stock_snapshot_stays_empty s :
  reachable s →
  stock_snapshot s = Some ∅ ∧ prevStockRef s = Some (stock s) ∧ loads s = 0.
Proof. by intros [_ Hidle]%reachable_inv. Qed.

(** C9.  [addProduct] for a product id that no line item of the cart has,
    once the product has been fetched: a line item with amount one is
    appended and the new cart is committed and mirrored, whatever the
    remote would answer for the stock of that product, be it zero or a
    failure. *)
Theorem addProduct_absent_unchecked api productId s c q :
  reachable s →
  cart_content s = Some c →
  list_find (has_id productId) c = None →
  get_product api productId = Resolved (Some q) →
  let s' := perform api (AddProduct productId) s in
  let c' := c ++ [set_amount 1 q] in
  toasts s' = toasts s ∧ cart s' ≠ cart s ∧ cart_content s' = Some c' ∧
  localStorage s' = Some (JSON_stringify c').
Proof.
  intros (l & c0 & Hat & Hs & Hc0)%reachable_cart Hc Hfind Hq.
  assert (c0 = c) as -> by congruence.
  pose proof (addProduct_outcome api productId s l c Hat Hs) as Ho.
  simpl in *. rewrite Hq, Hfind in Ho.
  by destruct Ho as (? & ? & ? & ? & _).
Qed.

(** The two paths that do consult the stock keep the ceiling: after an
    increment by [addProduct] (for amounts and stocks in the range where
    integers are doubles), and after [updateProductAmount], the amount of
    the line item is at most the stock amount that was fetched. *)
Lemma addProduct_increment_within_stock api productId s c i p q st :
  reachable s →
  cart_content s = Some c →
  list_find (has_id productId) c = Some (i, p) →
  get_product api productId = Resolved (Some q) →
  get_stock api productId = Resolved (Some st) →
  (- 2 ^ 53 <= amount p)%Z → (stock_amount st <= 2 ^ 53)%Z →
  let s' := perform api (AddProduct productId) s in
  ¬ signals_failure s s' →
  ∃ p', cart_content s' = Some (<[i := p']> c) ∧
        (amount p' <= stock_amount st)%Z.
Proof.
  intros (l & c0 & Hat & Hs & Hc0)%reachable_cart Hc Hfind Hq Hst Hlo Hhi
    s' Hok.
  assert (c0 = c) as -> by congruence.
  pose proof (addProduct_outcome api productId s l c Hat Hs) as Ho.
  simpl in Ho. fold s' in Ho. rewrite Hq, Hfind, Hst in Ho.
  case_bool_decide as Hge.
  - destruct Hok. eauto using failure_signals.
  - destruct Ho as (_ & _ & Hc' & _). eexists. split; [exact Hc'|]. simpl.
    rewrite js_succ_exact by lia. lia.
Qed.

Lemma updateProductAmount_within_stock api productId amount_ s st :
  reachable s →
  get_stock api productId = Resolved (Some st) →
  let s' := perform api (UpdateProductAmount productId amount_) s in
  ¬ signals_failure s s' →
  (amount_ <= stock_amount st)%Z.
Proof.
  intros (l & c & Hat & Hs & _)%reachable_cart Hst s' Hok.
  pose proof (updateProductAmount_outcome api productId amount_ s l c Hat Hs)
    as Ho. simpl in Ho. fold s' in Ho. rewrite Hst in Ho.
  repeat case_bool_decide; try lia;
    destruct Hok; eauto using failure_signals.
Qed.

(** C10.  Frame: none of the three operations touches the stock snapshot.
    In any store, on every path, the stock cell, every stock mapping in the
    heap, and hence the snapshot, are after the call what they were
    before. *)
Theorem operations_leave_stock_alone api op s :
  stock (perform api op s) = stock s ∧
  stocks (perform api op s) = stocks s ∧
  stock_snapshot (perform api op s) = stock_snapshot s.
Proof.
  destruct (frames_perform api op s) as (s2 & -> & Hh).
  assert (stocks s2 = stocks s ∧ stock s2 = stock s) as [Hk Hst].
  { unfold hooks in Hh. by injection Hh as -> -> _. }
  assert (stocks (flush s2) = stocks s2 ∧ stock (flush s2) = stock s2)
    as [Hk' Hst'].
  { unfold flush. destruct (dirty s2); [|done].
    by destruct (render_heap (with_dirty false s2)) as (_ & _ & ? & _ & ? & _). }
  unfold stock_snapshot. by rewrite Hk', Hst', Hk, Hst.
Qed.

(** ** Further properties of the store *)

(** *** The content of the cart as a list *)

Lemma perform_content api op s c :
  reachable s → cart_content s = Some c →
  cart_content (perform api op s) = Some (cart_step api op c).
Proof.
  intros (l & c0 & Hat & Hs & Hc0)%reachable_cart Hc.
  assert (c0 = c) as -> by congruence.
  assert (∀ s' msg, failure s s' msg → cart_content s' = Some c) as Hfail.
  { intros s' msg (_ & _ & Hc' & _). by rewrite Hc'. }
  assert (∀ s' c', committed s s' c' → cart_content s' = Some c') as Hcom.
  { by intros s' c' (_ & _ & Hc' & _). }
  destruct op as [productId|productId|productId a]; simpl.
  - pose proof (addProduct_outcome api productId s l c Hat Hs) as Ho.
    simpl in Ho. repeat case_match; eauto.
  - pose proof (removeProduct_outcome productId s l c Hat Hs) as Ho.
    simpl in Ho. repeat case_match; eauto.
  - pose proof (updateProductAmount_outcome api productId a s l c Hat Hs)
      as Ho.
    simpl in Ho. repeat case_match; eauto.
Qed.

Lemma reachable_perform api op s : reachable s → reachable (perform api op s).
Proof. apply (reachable_handle (Call api op)). Qed.

Lemma reachable_run calls s : reachable s → reachable (run calls s).
Proof.
  revert s. induction calls as [|[api op] calls IH]; intros s Hr; [done|].
  apply IH, reachable_perform, Hr.
Qed.

Lemma run_content calls s c :
  reachable s → cart_content s = Some c →
  cart_content (run calls s)
    = Some (foldl (λ c call, cart_step call.1 call.2 c) c calls).
Proof.
  revert s c. induction calls as [|[api op] calls IH]; intros s c Hr Hc;
    [done|].
  simpl. apply IH; [by apply reachable_perform|by apply perform_content].
Qed.

(** X1.  On the content of the cart every operation is the list function
    [cart_step], whose increment is the JavaScript one: the heap, the
    shared objects, the render and the cache do not show. *)
Theorem perform_refines_cart_step api op s c :
  reachable s → cart_content s = Some c →
  cart_content (perform api op s) = Some (cart_step api op c).
Proof. apply perform_content. Qed.

(** *** Invariants of the content *)

Lemma list_find_None_ids productId c :
  list_find (has_id productId) c = None → productId ∉ id <$> c.
Proof.
  intros Hnone%list_find_None (p & -> & Hp)%list_elem_of_fmap.
  rewrite Forall_forall in Hnone. by apply (Hnone p).
Qed.

Lemma ids_set_amount c i p a :
  c !! i = Some p → id <$> <[i := set_amount a p]> c = id <$> c.
Proof.
  intros Hi. rewrite list_fmap_insert. apply list_insert_id.
  by rewrite list_lookup_fmap, Hi.
Qed.

Lemma cart_step_unique_ids api op c :
  honest api → unique_ids c → unique_ids (cart_step api op c).
Proof.
  unfold unique_ids. intros Hhonest Hnd.
  destruct op as [productId|productId|productId a]; simpl;
    repeat case_match; try done.
  - match goal with H : list_find _ _ = Some _ |- _ =>
      apply list_find_Some in H as (Hi & _) end.
    by rewrite ids_set_amount.
  - rewrite fmap_app. simpl. apply NoDup_app. split_and!; [done| |].
    + intros k Hk ->%list_elem_of_singleton.
      match goal with H : get_product _ _ = _ |- _ =>
        apply Hhonest in H; rewrite H in Hk end.
      by eapply list_find_None_ids.
    + apply NoDup_singleton.
  - rewrite list_fmap_delete.
    eapply sublist_NoDup; [done|apply sublist_delete].
  - match goal with H : list_find _ _ = Some _ |- _ =>
      apply list_find_Some in H as (Hi & _) end.
    by rewrite ids_set_amount.
Qed.

Lemma cart_step_amounts_positive api op c :
  amounts_positive c → amounts_positive (cart_step api op c).
Proof.
  unfold amounts_positive. intros Hpos.
  destruct op as [productId|productId|productId a]; simpl;
    repeat case_match; try done.
  - match goal with H : list_find _ _ = Some _ |- _ =>
      apply list_find_Some in H as (Hi & _) end.
    apply Forall_insert; [done|]. simpl.
    rewrite Forall_lookup in Hpos. specialize (Hpos _ _ Hi). simpl in Hpos.
    by apply js_succ_positive.
  - apply Forall_app. split; [done|]. by repeat constructor.
  - by apply Forall_delete.
  - apply Forall_insert; [done|]. simpl.
    match goal with H : bool_decide (a < 1)%Z = false |- _ =>
      apply bool_decide_eq_false in H end. lia.
Qed.

(** X2.  Uniqueness of product ids: starting from a cart in which no two
    line items have the same id, any sequence of calls against remotes that
    answer with the product asked for leaves a cart in which no two line
    items have the same id. *)
Theorem run_keeps_ids_unique calls s c :
  reachable s → cart_content s = Some c → unique_ids c →
  Forall (λ call, honest call.1) calls →
  ∃ c', cart_content (run calls s) = Some c' ∧ unique_ids c'.
Proof.
  intros Hr Hc Hu Hh. eexists. split; [by apply run_content|].
  clear Hr Hc. revert c Hu.
  induction Hh as [|[api op] calls Hapi _ IH]; intros c Hu; [done|].
  simpl. by apply IH, cart_step_unique_ids.
Qed.

(** X3.  Amount floor: starting from a cart whose amounts are all at least
    one, any sequence of calls, against any remotes, leaves a cart whose
    amounts are all at least one. *)
Theorem run_keeps_amounts_positive calls s c :
  reachable s → cart_content s = Some c → amounts_positive c →
  ∃ c', cart_content (run calls s) = Some c' ∧ amounts_positive c'.
Proof.
  intros Hr Hc Hpos. eexists. split; [by apply run_content|].
  clear Hr Hc. revert c Hpos.
  induction calls as [|[api op] calls IH]; intros c Hpos; [done|].
  simpl. by apply IH, cart_step_amounts_positive.
Qed.

(** *** What each call signals *)

(** X4.  [updateProductAmount] with an amount of at least one.  A stock
    fetch that fails gives the could-not-update message.  Otherwise the
    stock is compared first: a requested amount above it gives the
    out-of-stock message, whether or not the product is in the cart.  Only
    then is the line item looked up: absent, the could-not-update message;
    present, its amount is overwritten with the requested one, the other
    line items and the order are kept, and the new cart is committed and
    mirrored.  Every failure leaves the cart and the cache as they were. *)
Theorem updateProductAmount_spec api productId amount_ s :
  reachable s → (1 <= amount_)%Z →
  let s' := perform api (UpdateProductAmount productId amount_) s in
  ∃ c, cart_content s = Some c ∧
    match get_stock api productId with
    | Resolved (Some st) =>
      if bool_decide (stock_amount st < amount_)%Z then
        signals s s' msg_stock ∧ cart s' = cart s ∧
        cart_content s' = Some c ∧ localStorage s' = localStorage s
      else
        match list_find (has_id productId) c with
        | None =>
          signals s s' msg_update ∧ cart s' = cart s ∧
          cart_content s' = Some c ∧ localStorage s' = localStorage s
        | Some (i, p) =>
          let c' := <[i := set_amount amount_ p]> c in
          toasts s' = toasts s ∧ cart s' ≠ cart s ∧
          cart_content s' = Some c' ∧
          localStorage s' = Some (JSON_stringify c')
        end
    | _ =>
      signals s s' msg_update ∧ cart s' = cart s ∧
      cart_content s' = Some c ∧ localStorage s' = localStorage s
    end.
Proof.
  intros (l & c & Hat & Hs & Hc)%reachable_cart Hle. simpl. exists c.
  split; [done|].
  pose proof (updateProductAmount_outcome api productId amount_ s l c Hat Hs)
    as Ho. simpl in Ho. rewrite bool_decide_eq_false_2 in Ho by lia.
  assert (∀ s' msg, failure s s' msg →
    signals s s' msg ∧ cart s' = cart s ∧ cart_content s' = Some c ∧
    localStorage s' = localStorage s) as Hfail.
  { intros s' msg (? & ? & Hc' & ? & _). by rewrite Hc', Hc. }
  repeat case_match; eauto.
  by destruct Ho as (? & ? & ? & ? & _).
Qed.

(** X5.  [addProduct] when the product cannot be fetched (the request
    fails or resolves with no product): the could-not-add message is
    signalled and the cart and the cache are unchanged, even when a line
    item with that id is already in the cart. *)
Theorem addProduct_unresolved_product api productId s :
  reachable s → no_data (get_product api productId) →
  let s' := perform api (AddProduct productId) s in
  signals s s' msg_add ∧ cart s' = cart s ∧
  cart_content s' = cart_content s ∧ localStorage s' = localStorage s.
Proof.
  intros (l & c & Hat & Hs & Hc)%reachable_cart Hno. simpl.
  pose proof (addProduct_outcome api productId s l c Hat Hs) as Ho.
  simpl in Ho. destruct Hno as [Hno|Hno]; rewrite Hno in Ho;
    by destruct Ho as (? & ? & ? & ? & _).
Qed.

(** X6.  [addProduct] on a product that is in the cart, when the stock
    cannot be fetched: the message is the could-not-add one, not the
    out-of-stock one, and the amount is not incremented. *)
Theorem addProduct_stock_unavailable api productId s c i p q :
  reachable s → cart_content s = Some c →
  list_find (has_id productId) c = Some (i, p) →
  get_product api productId = Resolved (Some q) →
  no_data (get_stock api productId) →
  let s' := perform api (AddProduct productId) s in
  signals s s' msg_add ∧ cart s' = cart s ∧
  cart_content s' = Some c ∧ localStorage s' = localStorage s.
Proof.
  intros (l & c0 & Hat & Hs & Hc0)%reachable_cart Hc Hfind Hq Hno. simpl.
  assert (c0 = c) as -> by congruence.
  pose proof (addProduct_outcome api productId s l c Hat Hs) as Ho.
  simpl in Ho. rewrite Hq, Hfind in Ho.
  destruct Hno as [Hno|Hno]; rewrite Hno in Ho;
    destruct Ho as (? & ? & Hc' & ? & _); by rewrite Hc', Hc.
Qed.

(** X7.  Every call either commits or signals, never both: it replaces the
    cart and calls no [toast.error], or it calls [toast.error] exactly once,
    with one of the messages of that operation, and keeps the cart. *)
Theorem perform_commits_or_signals api op s :
  reachable s →
  let s' := perform api op s in
  (toasts s' = toasts s ∧ cart s' ≠ cart s) ∨
  (∃ msg, msg ∈ messages_of op ∧ signals s s' msg ∧ cart s' = cart s).
Proof.
  intros (l & c & Hat & Hs & _)%reachable_cart. simpl.
  assert (∀ s' c', committed s s' c' → toasts s' = toasts s ∧ cart s' ≠ cart s)
    as Hcom by (by intros s' c' (? & ? & _)).
  assert (∀ s' msg, failure s s' msg → signals s s' msg ∧ cart s' = cart s)
    as Hfail by (by intros s' msg (? & ? & _)).
  destruct op as [productId|productId|productId a]; simpl.
  - pose proof (addProduct_outcome api productId s l c Hat Hs) as Ho.
    simpl in Ho.
    repeat case_match; eauto;
      right; eexists; (split; [|by apply Hfail]); repeat constructor.
  - pose proof (removeProduct_outcome productId s l c Hat Hs) as Ho.
    simpl in Ho.
    repeat case_match; eauto;
      right; eexists; (split; [|by apply Hfail]); repeat constructor.
  - pose proof (updateProductAmount_outcome api productId a s l c Hat Hs)
      as Ho. simpl in Ho.
    repeat case_match; eauto;
      right; eexists; (split; [|by apply Hfail]); repeat constructor.
Qed.

(** *** Rendering again, and the stock refresh *)

(** X8.  Rendering a reachable store once more changes nothing but the
    dependency arrays React remembers: the guards of the second and third
    effect are false, so the cache is not written and [loadStocks] is not
    called. *)
Theorem render_again_is_silent s :
  reachable s →
  render s =
    with_stockDeps (Some (stock s, stock s))
      (with_cartDeps (Some (cart s, cart s)) s).
Proof.
  intros [[_ (Hd & Hp & Hdeps)] (_ & Hps & _)]%reachable_inv.
  destruct s as [objs arrs stks c k pc pk cd sd ls ts n d]. simpl in *.
  subst pc pk. unfold render, mirror, loadStocks_call. simpl.
  rewrite !(bool_decide_eq_false_2 (_ ≠ _)) by naive_solver.
  destruct (deps_changed cd (c, c)) eqn:Hcd;
    destruct (deps_changed sd (k, k)) eqn:Hsd; simpl;
    try (apply deps_unchanged in Hcd as ->);
    try (apply deps_unchanged in Hsd as ->); simpl;
    rewrite ?Hsd; repeat case_bool_decide; done.
Qed.

(** X9.  The mapping [loadStocks] builds from the listing: each product id
    is mapped to the amount of the last row with that id, and an id with no
    row is not in the mapping. *)
Theorem reduce_stock_lookup (data : list Stock) (k : Z) :
  reduce_stock data !! k
    = stock_amount <$> last (filter (λ row, stock_id row = k) data).
Proof.
  unfold reduce_stock. induction data as [|row data IH] using rev_ind;
    [done|].
  rewrite foldl_snoc, filter_app.
  destruct (decide (stock_id row = k)) as [Hk|Hk].
  - rewrite (filter_cons_True _ row) by done.
    rewrite filter_nil, last_snoc, <- Hk. simpl. apply lookup_insert_eq.
  - rewrite (filter_cons_False _ row) by done.
    rewrite filter_nil, app_nil_r, lookup_insert_ne by done. apply IH.
Qed.

Lemma loadStocks_resolved n data s :
  awaiting_stock n s →
  let s' := stock_listing (Resolved (Some data)) s in
  stock_snapshot s' = Some (reduce_stock data) ∧ stock s' ≠ stock s ∧
  (∀ k, k < length (stocks s) → stocks s' !! k = stocks s !! k) ∧
  loads s' = S n ∧ cart s' = cart s ∧ cart_content s' = cart_content s ∧
  localStorage s' = localStorage s ∧ toasts s' = toasts s.
Proof.
  intros ([_ (Hd & Hp & Hcd)] & Hps & Hsd & Hk & Hl). simpl.
  unfold stock_listing. rewrite Hl. unfold invoke, loadStocks.
  unfold bind, await, defined, ret, new_stock, setStock, modify. simpl.
  apply lookup_lt_is_Some in Hk.
  destruct (decide (length (stocks s) = stock s)) as [|_]; [lia|].
  unfold flush. simpl.
  match goal with |- context [render ?x] => set (s3 := x) end.
  destruct (render_heap s3) as (Ho & Ha & Hks & Hc & Hst & Ht & _).
  split_and!.
  - unfold stock_snapshot. rewrite Hks, Hst. simpl. apply lookup_snoc.
  - rewrite Hst. simpl. lia.
  - intros k Hlt. rewrite Hks. simpl. by apply lookup_app_l.
  - rewrite render_loads. simpl. rewrite Hps. simpl.
    rewrite (bool_decide_eq_true_2 (stock s ≠ _)) by lia.
    destruct (stockDeps s) as [[a b]|]; simpl in *; [|done].
    rewrite bool_decide_eq_true_2; [done|]. intros [= -> ->].
    simplify_eq. lia.
  - by rewrite Hc.
  - by rewrite render_cart_content.
  - rewrite render_localStorage. simpl. rewrite Hp. simpl.
    by rewrite (bool_decide_eq_false_2 (cart s ≠ _)), andb_false_r
      by naive_solver.
  - by rewrite Ht.
Qed.

(** X10.  [loadStocks] when its request is answered.  A rejection, or an
    answer with no listing, is dropped: nothing is signalled and the store
    is as it was, one request less in flight.  A listing replaces the
    snapshot by a new mapping, the reduction of the listing, and leaves the
    earlier mappings, the cart, the cache and the toasts alone; the render
    that follows finds a snapshot that is not the one it recorded and calls
    [loadStocks] again, so as many requests are in flight as before. *)
Theorem loadStocks_answered n s :
  awaiting_stock n s →
  (∀ r, no_data r → stock_listing r s = with_loads n s) ∧
  (∀ data,
     let s' := stock_listing (Resolved (Some data)) s in
     stock_snapshot s' = Some (reduce_stock data) ∧ stock s' ≠ stock s ∧
     (∀ k, k < length (stocks s) → stocks s' !! k = stocks s !! k) ∧
     loads s' = S n ∧ cart s' = cart s ∧ cart_content s' = cart_content s ∧
     localStorage s' = localStorage s ∧ toasts s' = toasts s).
Proof.
  intros Haw. split; [|intros data; by apply loadStocks_resolved].
  destruct Haw as ([_ (Hd & _)] & _ & _ & _ & Hl).
  intros r [-> | ->]; unfold stock_listing; rewrite Hl;
    unfold invoke; simpl; by rewrite flush_idle.
Qed.

(** *** How the operations compose *)

Lemma list_find_snoc productId c q :
  list_find (has_id productId) c = None → id q = productId →
  list_find (has_id productId) (c ++ [q]) = Some (length c, q).
Proof.
  intros Hnone Hq. apply list_find_app_Some. right.
  split_and!; [done..|]. rewrite Nat.sub_diag. simpl.
  unfold has_id at 1. by rewrite decide_True.
Qed.

(** X11.  Adding a product that is not in the cart and then removing it
    gives back the cart there was, when the remote answered with the
    product asked for. *)
Theorem add_then_remove api api' productId s c q :
  reachable s → cart_content s = Some c →
  list_find (has_id productId) c = None →
  get_product api productId = Resolved (Some q) → id q = productId →
  cart_content
    (perform api' (RemoveProduct productId)
       (perform api (AddProduct productId) s)) = Some c.
Proof.
  intros Hr Hc Hnone Hq Hid.
  rewrite (perform_content api' _ _ (cart_step api (AddProduct productId) c))
    by eauto using reachable_perform, perform_content.
  simpl. rewrite Hq, Hnone.
  rewrite (list_find_snoc productId c (set_amount 1 q)) by done.
  by rewrite delete_middle, app_nil_r.
Qed.

(** X12.  A repeated add increments instead of inserting: adding a product
    that is not in the cart and adding it again, when the second call finds
    more than one piece in stock, leaves one line item for it, at the end
    of the cart, with amount two. *)
Theorem add_twice api api' productId s c q q' st :
  reachable s → cart_content s = Some c →
  list_find (has_id productId) c = None →
  get_product api productId = Resolved (Some q) → id q = productId →
  get_product api' productId = Resolved (Some q') →
  get_stock api' productId = Resolved (Some st) →
  (1 < stock_amount st)%Z →
  cart_content
    (perform api' (AddProduct productId)
       (perform api (AddProduct productId) s)) = Some (c ++ [set_amount 2 q]).
Proof.
  intros Hr Hc Hnone Hq Hid Hq' Hst Hlt.
  rewrite (perform_content api' _ _ (cart_step api (AddProduct productId) c))
    by eauto using reachable_perform, perform_content.
  simpl. rewrite Hq, Hnone, Hq'.
  rewrite (list_find_snoc productId c (set_amount 1 q)), Hst by done.
  simpl. rewrite bool_decide_eq_false_2 by lia.
  by rewrite insert_snoc.
Qed.

(** *** Reloading *)

Lemma mount_of_initial_cart slot c :
  initial_cart slot = Normal (IsCart c) →
  ∃ s, mount slot = Normal (Typed s) ∧ cart_content s = Some c ∧
       localStorage s = slot.
Proof.
  intros Hc. unfold mount. rewrite Hc. eexists. split; [done|].
  apply first_render_content.
Qed.

Lemma reachable_reloads s :
  (∀ c, JSON_parse (JSON_stringify c) = Some (IsCart c)) →
  (∀ c, JSON_stringify c ≠ EmptyString) →
  reachable s →
  ∃ c, initial_cart (localStorage s) = Normal (IsCart c) ∧
       cart_content s = Some c.
Proof.
  intros Hround Hne. induction 1 as [slot s Hm|e s Hr (c & Hi & Hc)].
  - destruct (initial_cart slot) as [[c|v]|] eqn:Hi.
    2,3: unfold mount in Hm; by rewrite Hi in Hm.
    destruct (mount_of_initial_cart slot c Hi) as (s' & Hm' & Hc' & Hls).
    rewrite Hm in Hm'. injection Hm' as <-.
    exists c. by rewrite Hls.
  - destruct e as [api op|r]; simpl.
    + destruct (perform_outcome api op s Hr) as [[msg Hf]|[c' Hcom]].
      * destruct Hf as (_ & _ & Hc' & Hls & _). exists c.
        by rewrite Hls, Hc'.
      * destruct Hcom as (_ & _ & Hc' & Hls & _). exists c'.
        split; [|done]. rewrite Hls. simpl.
        by rewrite bool_decide_eq_true_2, Hround by apply Hne.
    + destruct (reachable_inv s Hr) as [_ Hidle].
      rewrite stock_listing_idle by done. eauto.
Qed.

(** X13.  Reloading restores the cart.  Provided parsing undoes
    serialising and no cart serialises to the empty string, in every
    reachable store a new store mounted over the cache slot as it stands
    starts with the content the cart has. *)
Theorem reload_restores_cart s :
  (∀ c, JSON_parse (JSON_stringify c) = Some (IsCart c)) →
  (∀ c, JSON_stringify c ≠ EmptyString) →
  reachable s →
  ∃ s2, mount (localStorage s) = Normal (Typed s2) ∧
        cart_content s2 = cart_content s.
Proof.
  intros Hround Hne Hr.
  destruct (reachable_reloads s Hround Hne Hr) as (c & Hi & Hc).
  destruct (mount_of_initial_cart _ c Hi) as (s2 & Hm & Hc2 & _).
  exists s2. by rewrite Hc2, Hc.
Qed.

(** *** Arrays are copied, objects are shared *)

Lemma flush_heap s :
  arrays (flush s) = arrays s ∧ objects (flush s) = objects s ∧
  cart (flush s) = cart s.
Proof.
  unfold flush. destruct (dirty s); [|done].
  by destruct (render_heap (with_dirty false s)) as (? & ? & _ & ? & _).
Qed.

Lemma perform_arrays api op s :
  reachable s → ∃ ext, arrays (perform api op s) = arrays s ++ ext.
Proof.
  intros (l & c & Hat & Hs & _)%reachable_cart.
  assert (∀ s2 ext, arrays s2 = arrays s ++ ext →
    ∃ ext, arrays (flush s2) = arrays s ++ ext) as Hflush.
  { intros s2 ext Hs2. exists ext. by rewrite (proj1 (flush_heap s2)). }
  pose proof Hat as (Hl & Hh & Hnd).
  destruct op as [productId|productId|productId a]; simpl; unfold invoke.
  - destruct (get_product api productId) as [|[q|]] eqn:Hq.
    + rewrite (addProduct_unresolved _ _ _ l c) by (done || rewrite Hq; by left).
      by eapply Hflush.
    + destruct (list_find (has_id productId) c) as [[i p]|] eqn:Hfind.
      * destruct (list_find_holds _ _ _ _ _ _ Hh Hfind) as (o & Ho & _).
        destruct (get_stock api productId) as [|[st|]] eqn:Hst.
        -- rewrite (addProduct_stock_failed _ _ _ l c q i p)
             by (done || rewrite Hst; by left).
           by eapply Hflush.
        -- destruct (decide (amount p >= stock_amount st)%Z).
           ++ rewrite (addProduct_exhausted _ _ _ l c q i p st) by done.
              by eapply Hflush.
           ++ rewrite (addProduct_increment _ _ _ l c q i p o st)
                by (done || lia).
              by eapply Hflush.
        -- rewrite (addProduct_stock_failed _ _ _ l c q i p)
             by (done || rewrite Hst; by right).
           by eapply Hflush.
      * rewrite (addProduct_new _ _ _ l c q) by done. by eapply Hflush.
    + rewrite (addProduct_unresolved _ _ _ l c)
        by (done || rewrite Hq; by right).
      by eapply Hflush.
  - destruct (list_find (has_id productId) c) as [[i p]|] eqn:Hfind.
    + rewrite (removeProduct_found _ _ l c i p) by done. by eapply Hflush.
    + rewrite (removeProduct_missing _ _ l c) by done. by eapply Hflush.
  - destruct (decide (a < 1)%Z).
    { rewrite updateProductAmount_invalid by done.
      apply (Hflush _ []). simpl. by rewrite app_nil_r. }
    destruct (get_stock api productId) as [|[st|]] eqn:Hst.
    + rewrite updateProductAmount_stock_failed
        by (lia || rewrite Hst; by left).
      apply (Hflush _ []). simpl. by rewrite app_nil_r.
    + destruct (decide (stock_amount st < a)%Z).
      { rewrite (updateProductAmount_exceeds _ _ _ _ st) by (done || lia).
        apply (Hflush _ []). simpl. by rewrite app_nil_r. }
      destruct (list_find (has_id productId) c) as [[i p]|] eqn:Hfind.
      * destruct (list_find_holds _ _ _ _ _ _ Hh Hfind) as (o & Ho & _).
        rewrite (updateProductAmount_set _ _ _ _ l c st i p o)
          by (done || lia).
        by eapply Hflush.
      * rewrite (updateProductAmount_missing _ _ _ _ l c st)
          by (done || lia).
        by eapply Hflush.
    + rewrite updateProductAmount_stock_failed
        by (lia || rewrite Hst; by right).
      apply (Hflush _ []). simpl. by rewrite app_nil_r.
Qed.

(** X14.  No operation mutates an array that existed before the call: the
    heap of arrays only grows.  In particular the array the cart cell held
    before the call still has the elements it had, so a reader that kept
    the old cart sees the same line items in the same order. *)
Theorem operations_never_mutate_arrays api op s :
  reachable s →
  ∀ a, a < length (arrays s) →
       arrays (perform api op s) !! a = arrays s !! a.
Proof.
  intros Hr a Ha. destruct (perform_arrays api op s Hr) as [ext ->].
  by apply lookup_app_l.
Qed.

Lemma in_place_content s s2 l :
  arrays s !! cart s = Some l →
  arrays s2 = arrays s ++ [l] → cart s2 = length (arrays s) →
  arrays (flush s2) !! cart (flush s2) = arrays s !! cart s ∧
  cart_content (with_cart (cart s) (flush s2)) = cart_content (flush s2).
Proof.
  intros Hl Ha Hc. destruct (flush_heap s2) as (Ha' & Ho' & Hc').
  assert (arrays (flush s2) !! cart (flush s2) = Some l) as Hnew.
  { rewrite Ha', Hc', Ha, Hc. apply lookup_snoc. }
  assert (arrays (flush s2) !! cart s = Some l) as Hold.
  { rewrite Ha', Ha. by apply lookup_app_l_Some. }
  split; [by rewrite Hnew, Hl|].
  unfold cart_content. simpl. by rewrite Hnew, Hold.
Qed.

(** X15.  [updateProductAmount] changes the line item in place.  When it
    commits, the new array of the cart has the very elements of the old
    one, and the old array, read after the call, shows the new amount:
    its content is the content of the new cart. *)
Theorem updateProductAmount_in_place api productId amount_ s c i p st :
  reachable s → cart_content s = Some c →
  list_find (has_id productId) c = Some (i, p) →
  get_stock api productId = Resolved (Some st) →
  (1 <= amount_ <= stock_amount st)%Z →
  let s' := perform api (UpdateProductAmount productId amount_) s in
  arrays s' !! cart s' = arrays s !! cart s ∧
  cart_content (with_cart (cart s) s') = cart_content s' ∧
  cart_content s' = Some (<[i := set_amount amount_ p]> c).
Proof.
  intros Hr Hc Hfind Hst Hle s'. subst s'. split_and!.
  3: { rewrite (perform_content _ _ _ c) by done. simpl.
       rewrite !bool_decide_eq_false_2, Hst by lia.
       by rewrite bool_decide_eq_false_2, Hfind by lia. }
  all: destruct (reachable_cart s Hr) as (l & c0 & Hat & _ & Hc0);
    assert (c0 = c) as -> by congruence;
    pose proof Hat as (Hl & Hh & _);
    destruct (list_find_holds _ _ _ _ _ _ Hh Hfind) as (o & Ho & _);
    simpl; unfold invoke;
    rewrite (updateProductAmount_set _ _ _ _ l c st i p o) by (done || lia);
    by apply (in_place_content s _ l).
Qed.

(** X16.  The increment of [addProduct] changes the line item in place,
    in the same way: the new array has the elements of the old one, and the
    old array shows the amount the increment produced, [amount + 1] as
    JavaScript computes it. *)
Theorem addProduct_increment_in_place api productId s c i p q st :
  reachable s → cart_content s = Some c →
  list_find (has_id productId) c = Some (i, p) →
  get_product api productId = Resolved (Some q) →
  get_stock api productId = Resolved (Some st) →
  (amount p < stock_amount st)%Z →
  let s' := perform api (AddProduct productId) s in
  arrays s' !! cart s' = arrays s !! cart s ∧
  cart_content (with_cart (cart s) s') = cart_content s' ∧
  cart_content s' = Some (<[i := set_amount (js_succ (amount p)) p]> c).
Proof.
  intros Hr Hc Hfind Hq Hst Hlt s'. subst s'. split_and!.
  3: { rewrite (perform_content _ _ _ c) by done. simpl.
       rewrite Hq, Hfind, Hst. by rewrite bool_decide_eq_false_2 by lia. }
  all: destruct (reachable_cart s Hr) as (l & c0 & Hat & _ & Hc0);
    assert (c0 = c) as -> by congruence;
    pose proof Hat as (Hl & Hh & _);
    destruct (list_find_holds _ _ _ _ _ _ Hh Hfind) as (o & Ho & _);
    simpl; unfold invoke;
    rewrite (addProduct_increment _ _ _ l c q i p o st) by (done || lia);
    by apply (in_place_content s _ l).
Qed.

End Properties.

(** * The reference codec round-trips *)

Module CanonicalFacts.
Import Canonical.

Lemma app_cons a s r : String a s +:+ r = String a (s +:+ r).
Proof. done. Qed.

Lemma app_assoc (s1 s2 s3 : string) : (s1 +:+ s2) +:+ s3 = s1 +:+ s2 +:+ s3.
Proof.
  induction s1 as [|a s1 IH]; [done|]. by rewrite !app_cons, IH.
Qed.

Lemma length_app (s1 s2 : string) :
  String.length (s1 +:+ s2) = String.length s1 + String.length s2.
Proof.
  induction s1 as [|a s1 IH]; [done|]. rewrite app_cons. simpl. by rewrite IH.
Qed.

Lemma expect_app pre s : expect pre (pre +:+ s) = Some s.
Proof.
  induction pre as [|a pre IH]; [by destruct s|].
  rewrite app_cons. simpl. by rewrite bool_decide_eq_true_2.
Qed.

Lemma parse_digits_print d a r :
  delimiter a →
  parse_digits (NilEmpty.string_of_uint d +:+ String a r) = (d, String a r).
Proof.
  intros Ha.
  assert (parse_digits (String a r) = (Decimal.Nil, String a r)) as Hnil.
  { change (parse_digits (String a r))
      with (let (d, rest) := parse_digits r in
            match uint_of_char a (Some d) with
            | Some d' => (d', rest)
            | None => (Decimal.Nil, String a r)
            end).
    destruct (parse_digits r). by rewrite Ha. }
  induction d as [|d IH|d IH|d IH|d IH|d IH|d IH|d IH|d IH|d IH|d IH];
    simpl NilEmpty.string_of_uint; [done|..];
    rewrite app_cons; simpl; by rewrite IH.
Qed.

Lemma to_uint_normal p : Decimal.unorm (Pos.to_uint p) = Pos.to_uint p.
Proof.
  by rewrite <- (DecimalPos.Unsigned.to_of (Pos.to_uint p)),
    DecimalPos.Unsigned.of_to.
Qed.

(** The digits of a positive number do not start with a zero. *)
Lemma to_uint_well_formed p : well_formed (Pos.to_uint p) = true.
Proof.
  pose proof (DecimalPos.Unsigned.to_uint_nonnil p) as Hnil.
  pose proof (to_uint_normal p) as Hnorm.
  destruct (Pos.to_uint p) as [|u| | | | | | | | | ]; try done.
  destruct u as [|u'|u'|u'|u'|u'|u'|u'|u'|u'|u']; try done; exfalso;
    unfold Decimal.unorm in Hnorm; simpl Decimal.nzhead in Hnorm;
    match type of Hnorm with
    | context [Decimal.nzhead ?v] =>
      pose proof (DecimalFacts.nb_digits_nzhead v) as Hlen;
      destruct (Decimal.nzhead v); simplify_eq; simpl in Hlen; lia
    | _ => simplify_eq
    end.
Qed.

Lemma to_int_well_formed z d :
  Z.to_int z = Decimal.Pos d ∨ Z.to_int z = Decimal.Neg d →
  well_formed d = true.
Proof.
  destruct z as [|p|p]; simpl; intros [Hd|Hd]; simplify_eq;
    first [done | apply to_uint_well_formed].
Qed.

Lemma parse_Z_print z a r :
  delimiter a → parse_Z (print_Z z +:+ String a r) = Some (z, String a r).
Proof.
  intros Ha. unfold print_Z. rewrite <- (DecimalZ.of_to z) at 2.
  destruct (Z.to_int z) as [d|d] eqn:Hz.
  - assert (well_formed d = true) as Hwf
      by (apply (to_int_well_formed z); by left).
    simpl NilEmpty.string_of_int. unfold parse_Z.
    pose proof (parse_digits_print d a r Ha) as Hp.
    destruct d; try done; simpl NilEmpty.string_of_uint in *;
      rewrite app_cons in *; by rewrite Hp, Hwf.
  - assert (well_formed d = true) as Hwf
      by (apply (to_int_well_formed z); by right).
    simpl NilEmpty.string_of_int. rewrite app_cons. simpl.
    by rewrite (parse_digits_print d a r Ha), Hwf.
Qed.

Lemma delimiter_comma : delimiter ",".
Proof. by intros d. Qed.

Lemma delimiter_brace : delimiter "}".
Proof. by intros d. Qed.

#[local] Arguments expect : simpl never.
#[local] Arguments parse_Z : simpl never.
#[local] Arguments parse_product : simpl never.

Lemma sep_amount_cons x : sep_amount +:+ x = String "," (key "amount" +:+ x).
Proof. done. Qed.

Lemma parse_product_print p rest :
  parse_product (print_product p +:+ rest) = Some (p, rest).
Proof.
  destruct p as [i a []]. unfold print_product, parse_product.
  cbn [id amount]. rewrite !app_assoc, expect_app. cbn [mbind option_bind].
  rewrite sep_amount_cons, (parse_Z_print i) by apply delimiter_comma.
  cbn [mbind option_bind]. rewrite <- sep_amount_cons, expect_app.
  cbn [mbind option_bind].
  change ("}" +:+ rest) with (String "}" rest).
  rewrite (parse_Z_print a) by apply delimiter_brace.
  cbn [mbind option_bind]. unfold expect.
  by rewrite bool_decide_eq_true_2.
Qed.

Lemma parse_products_S fuel s :
  parse_products (S fuel) s =
    parse_product s ≫= λ '(p, s'),
      match s' with
      | String "]" EmptyString => Some [p]
      | String "," s'' => (p ::.) <$> parse_products fuel s''
      | _ => None
      end.
Proof. done. Qed.

Lemma parse_products_last fuel p :
  parse_products (S fuel) (print_product p +:+ "]") = Some [p].
Proof. by rewrite parse_products_S, parse_product_print. Qed.

Lemma parse_products_more fuel p rest :
  parse_products (S fuel) (print_product p +:+ "," +:+ rest) =
    (p ::.) <$> parse_products fuel rest.
Proof. by rewrite parse_products_S, parse_product_print. Qed.

Lemma print_products_cons p p' c :
  print_products (p :: p' :: c) =
    print_product p +:+ "," +:+ print_products (p' :: c).
Proof. done. Qed.

Lemma parse_products_print c p fuel :
  length c < fuel →
  parse_products fuel (print_products (p :: c) +:+ "]") = Some (p :: c).
Proof.
  revert p fuel. induction c as [|p' c IH]; intros p [|fuel] Hlt;
    simpl in Hlt; try lia.
  - apply parse_products_last.
  - rewrite print_products_cons, !app_assoc, parse_products_more.
    by rewrite IH by lia.
Qed.

Lemma length_print_product p : 1 ≤ String.length (print_product p).
Proof.
  unfold print_product. rewrite length_app.
  change (String.length open_id) with 6. lia.
Qed.

Lemma length_print_products c : length c ≤ String.length (print_products c).
Proof.
  induction c as [|p [|p' c] IH]; [done|..].
  - apply length_print_product.
  - rewrite print_products_cons, !length_app.
    pose proof (length_print_product p).
    change (String.length ",") with 1. simpl in *. lia.
Qed.

Lemma parse_cart_stringify c : parse_cart (stringify c) = Some c.
Proof.
  destruct c as [|p c]; [done|]. unfold stringify.
  change ("[" +:+ ?x) with (String "[" x).
  assert (∃ r, print_products (p :: c) +:+ "]" = String "{" r) as [r Hr].
  { destruct c; simpl; unfold print_product, open_id;
      rewrite !app_cons; eauto. }
  unfold parse_cart. rewrite Hr. rewrite <- Hr.
  apply parse_products_print. rewrite length_app.
  pose proof (length_print_products (p :: c)). simpl in *. lia.
Qed.

Lemma parse_stringify c : parse (stringify c) = Some (IsCart c).
Proof. unfold parse. by rewrite parse_cart_stringify. Qed.

End CanonicalFacts.

(** * The claims at concrete stores *)

Module Examples.
Import Canonical Demo.

Lemma mount_fresh : mount None = Normal (Typed fresh).
Proof. reflexivity. Qed.

Lemma reachable_fresh : reachable fresh.
Proof. apply (reachable_mount None), mount_fresh. Qed.

Lemma reachable_one_item : reachable one_item.
Proof.
  apply (reachable_handle (Call (shop 5) (AddProduct 1))), reachable_fresh.
Qed.

Lemma one_item_content : cart_content one_item = Some [mkProduct 1 1 tt].
Proof. reflexivity. Qed.

(** The scenarios of the specification, run on the model. *)

Example scenario_1 :
  cart_content (perform (shop 5) (AddProduct 1) fresh)
    = Some [mkProduct 1 1 tt].
Proof. reflexivity. Qed.

Example scenario_2 :
  let s' := perform (shop 1) (AddProduct 1) one_item in
  toasts s' = [msg_stock] ∧ cart_content s' = Some [mkProduct 1 1 tt].
Proof. split; reflexivity. Qed.

Example scenario_3 :
  let two := perform (shop 5) (AddProduct 1) one_item in
  cart_content two = Some [mkProduct 1 2 tt] ∧
  cart_content (perform (shop 5) (RemoveProduct 1) two) = Some [].
Proof. split; reflexivity. Qed.

Example scenario_4 :
  cart_content (perform (shop 10) (UpdateProductAmount 1 5) one_item)
    = Some [mkProduct 1 5 tt].
Proof. reflexivity. Qed.

Example scenario_5 :
  let s' := perform (shop 10) (UpdateProductAmount 1 0) one_item in
  toasts s' = [msg_update] ∧ cart_content s' = Some [mkProduct 1 1 tt].
Proof. split; reflexivity. Qed.

Example scenario_6 :
  let s' := perform (shop 10) (AddProduct 999) one_item in
  toasts s' = [msg_add] ∧ cart_content s' = Some [mkProduct 1 1 tt].
Proof. split; reflexivity. Qed.

(** The objects of the cart are shared between the arrays: the array the
    cart cell held before an increment sees the new amount too. *)
Example increment_is_in_place :
  let s' := perform (shop 5) (AddProduct 1) one_item in
  cart s' ≠ cart one_item ∧
  arrays s' !! cart one_item = arrays s' !! cart s' ∧
  cart_content (with_cart (cart one_item) s') = Some [mkProduct 1 2 tt].
Proof. split_and!; [by vm_compute|reflexivity..]. Qed.

(** C1 at a failing input.  The cache is absent, the remote knows product
    [1] and answers [0] for its stock.  [addProduct(1)] appends the line
    item with amount [1], signals nothing and mirrors the cart: the amount
    exceeds the stock recorded for the product when the item was added. *)
Theorem addProduct_new_item_exceeds_stock :
  let api := shop 0 in
  let s' := perform api (AddProduct 1) fresh in
  reachable fresh ∧
  get_stock api 1 = Resolved (Some (mkStock 1 0)) ∧
  toasts s' = toasts fresh ∧
  cart_content s' = Some [mkProduct 1 1 tt] ∧
  localStorage s' = Some (JSON_stringify [mkProduct 1 1 tt]) ∧
  ¬ (amount (mkProduct 1 1 tt) <= 0)%Z.
Proof.
  simpl. split; [apply reachable_fresh|].
  split_and!; try reflexivity. simpl. lia.
Qed.

Lemma failure_leaves_cart_unchanged_witness :
  let s' := perform (shop 1) (AddProduct 1) one_item in
  reachable one_item ∧ signals_failure one_item s' ∧
  cart s' = cart one_item ∧ cart_content s' = cart_content one_item ∧
  localStorage s' = localStorage one_item.
Proof.
  assert (signals_failure one_item (perform (shop 1) (AddProduct 1) one_item))
    as Hsig by (vm_compute; discriminate).
  split; [apply reachable_one_item|]. split; [exact Hsig|].
  exact (failure_leaves_cart_unchanged (shop 1) (AddProduct 1) one_item
           reachable_one_item Hsig).
Defined.

(** C3 as stated fails: the slot holds [{], which is not valid serialized
    data, and mounting throws instead of starting from the empty cart. *)
Lemma mount_malformed_cache_throws :
  JSON_parse "{" = None ∧
  ¬ ∃ s : Store unit,
      mount (Some "{") = Normal (Typed s) ∧ cart_content s = Some [].
Proof.
  split; [reflexivity|]. intros (s & Hm & _).
  assert (mount (Some "{") = Thrown) as Hthrown by reflexivity.
  rewrite Hthrown in Hm. discriminate.
Qed.

(** Nor does a slot holding JSON that is not a cart fall back to the empty
    cart: the component is mounted with the value as its cart. *)
Example mount_null : mount (Some "null") = Normal (Untyped JNull).
Proof. reflexivity. Qed.

Example mount_object : mount (Some "{}") = Normal (Untyped (JObject [])).
Proof. reflexivity. Qed.

Example mount_number : mount (Some "5") = Normal (Untyped (JNumber "5")).
Proof. reflexivity. Qed.

Example mount_empty_array : mount (Some "[]") = Normal (Typed fresh_over_empty)
  ∧ cart_content fresh_over_empty = Some [].
Proof. split; reflexivity. Qed.





Lemma cache_mirrors_cart_witness :
  let s' := perform (shop 5) (AddProduct 1) one_item in
  (∀ c, JSON_parse (JSON_stringify c) = Some (IsCart c)) ∧
  reachable one_item ∧ ¬ signals_failure one_item s' ∧
  (∃ text, localStorage s' = Some text ∧
           JSON_parse text = IsCart <$> cart_content s') ∧
  (localStorage s' = localStorage one_item ∨
   ∃ c', cart_content s' = Some c' ∧
         localStorage s' = Some (JSON_stringify c')).
Proof.
  assert (¬ signals_failure one_item (perform (shop 5) (AddProduct 1) one_item))
    as Hok by (intros Hsig; apply Hsig; reflexivity).
  split; [exact CanonicalFacts.parse_stringify|].
  split; [apply reachable_one_item|]. split; [exact Hok|].
  destruct (cache_mirrors_cart (json := codec) (shop 5) (AddProduct 1)
              one_item CanonicalFacts.parse_stringify reachable_one_item)
    as [Hmirror Hslot].
  split; [exact (Hmirror Hok)|exact Hslot].
Defined.

Lemma updateProductAmount_below_one_witness :
  let s' := perform (shop 10) (UpdateProductAmount 1 0) one_item in
  reachable one_item ∧ (0 < 1)%Z ∧
  s' = with_toasts (msg_update :: toasts one_item) one_item ∧
  signals one_item s' msg_update ∧ cart s' = cart one_item ∧
  cart_content s' = cart_content one_item ∧
  localStorage s' = localStorage one_item.
Proof.
  split; [apply reachable_one_item|]. split; [lia|].
  apply (updateProductAmount_below_one (shop 10) 1 0 one_item
           reachable_one_item).
  lia.
Defined.

Lemma removeProduct_spec_witness :
  let s' := invoke (removeProduct 1) one_item in
  reachable one_item ∧
  ∃ c, cart_content one_item = Some c ∧
    match list_find (has_id 1) c with
    | None =>
      signals one_item s' msg_remove ∧ cart s' = cart one_item ∧
      cart_content s' = Some c ∧ localStorage s' = localStorage one_item
    | Some (i, _) =>
      toasts s' = toasts one_item ∧ cart s' ≠ cart one_item ∧
      cart_content s' = Some (take i c ++ drop (S i) c) ∧
      localStorage s' = Some (JSON_stringify (take i c ++ drop (S i) c))
    end.
Proof.
  split; [apply reachable_one_item|].
  exact (removeProduct_spec 1 one_item reachable_one_item).
Defined.

Lemma stock_snapshot_stays_empty_witness :
  reachable one_item ∧
  stock_snapshot one_item = Some ∅ ∧
  prevStockRef one_item = Some (stock one_item) ∧ loads one_item = 0.
Proof.
  split; [apply reachable_one_item|].
  exact (stock_snapshot_stays_empty one_item reachable_one_item).
Defined.

Lemma addProduct_absent_unchecked_witness :
  let s' := perform (shop 0) (AddProduct 1) fresh in
  reachable fresh ∧ cart_content fresh = Some [] ∧
  list_find (has_id 1) ([] : list (Product unit)) = None ∧
  get_product (shop 0) 1 = Resolved (Some (mkProduct 1 0 tt)) ∧
  get_stock (shop 0) 1 = Resolved (Some (mkStock 1 0)) ∧
  toasts s' = toasts fresh ∧ cart s' ≠ cart fresh ∧
  cart_content s' = Some [mkProduct 1 1 tt] ∧
  localStorage s' = Some (JSON_stringify [mkProduct 1 1 tt]).
Proof.
  split; [apply reachable_fresh|]. do 4 (split; [reflexivity|]).
  exact (addProduct_absent_unchecked (shop 0) 1 fresh [] (mkProduct 1 0 tt)
           reachable_fresh eq_refl eq_refl eq_refl).
Defined.

End Examples.

(** * The further properties at concrete stores *)

Module MoreExamples.
Import Canonical Demo Examples.

Lemma honest_shop n : honest (shop n).
Proof.
  intros productId q. simpl. case_bool_decide; [|done]. by intros [= <-].
Qed.

Lemma stringify_nonempty c : JSON_stringify c ≠ EmptyString.
Proof. done. Qed.

Lemma awaiting_stock_waiting : awaiting_stock 0 waiting.
Proof.
  split.
  - split; [|done]. exists [], []. split_and!; [done|constructor..].
  - by split_and!.
Qed.

Lemma perform_refines_cart_step_witness :
  reachable one_item ∧ cart_content one_item = Some [mkProduct 1 1 tt] ∧
  cart_content (perform (shop 5) (AddProduct 1) one_item)
    = Some (cart_step (shop 5) (AddProduct 1) [mkProduct 1 1 tt]).
Proof.
  split; [apply reachable_one_item|]. split; [reflexivity|].
  exact (perform_refines_cart_step (shop 5) (AddProduct 1) one_item _
           reachable_one_item eq_refl).
Defined.

Lemma run_keeps_ids_unique_witness :
  let calls := [(shop 5, AddProduct 1); (shop 5, AddProduct 1);
                (shop 5, RemoveProduct 1); (shop 5, AddProduct 1)] in
  reachable fresh ∧ cart_content fresh = Some [] ∧
  unique_ids ([] : list (Product unit)) ∧
  Forall (λ call, honest call.1) calls ∧
  ∃ c', cart_content (run calls fresh) = Some c' ∧ unique_ids c'.
Proof.
  assert (unique_ids ([] : list (Product unit))) as Hu by constructor.
  assert (Forall (λ call : Remote unit * Operation, honest call.1)
            [(shop 5, AddProduct 1); (shop 5, AddProduct 1);
             (shop 5, RemoveProduct 1); (shop 5, AddProduct 1)]) as Hh
    by (repeat constructor; apply honest_shop).
  split; [apply reachable_fresh|]. split; [reflexivity|].
  split; [exact Hu|]. split; [exact Hh|].
  exact (run_keeps_ids_unique _ fresh [] reachable_fresh eq_refl Hu Hh).
Defined.

Lemma run_keeps_amounts_positive_witness :
  let calls := [(shop 5, AddProduct 1); (shop 5, UpdateProductAmount 1 3);
                (shop 5, UpdateProductAmount 1 0)] in
  reachable fresh ∧ cart_content fresh = Some [] ∧
  amounts_positive ([] : list (Product unit)) ∧
  ∃ c', cart_content (run calls fresh) = Some c' ∧ amounts_positive c'.
Proof.
  assert (amounts_positive ([] : list (Product unit))) as Hpos by constructor.
  split; [apply reachable_fresh|]. split; [reflexivity|].
  split; [exact Hpos|].
  exact (run_keeps_amounts_positive _ fresh [] reachable_fresh eq_refl Hpos).
Defined.

Lemma updateProductAmount_spec_witness :
  let s' := perform (shop 10) (UpdateProductAmount 1 5) one_item in
  reachable one_item ∧ (1 <= 5)%Z ∧
  ∃ c, cart_content one_item = Some c ∧
    match list_find (has_id 1) c with
    | None =>
      signals one_item s' msg_update ∧ cart s' = cart one_item ∧
      cart_content s' = Some c ∧ localStorage s' = localStorage one_item
    | Some (i, p) =>
      let c' := <[i := set_amount 5 p]> c in
      toasts s' = toasts one_item ∧ cart s' ≠ cart one_item ∧
      cart_content s' = Some c' ∧
      localStorage s' = Some (JSON_stringify c')
    end.
Proof.
  assert (1 <= 5)%Z as Hle by lia.
  split; [apply reachable_one_item|]. split; [exact Hle|].
  exact (updateProductAmount_spec (shop 10) 1 5 one_item
           reachable_one_item Hle).
Defined.

Lemma addProduct_unresolved_product_witness :
  let s' := perform offline (AddProduct 1) one_item in
  reachable one_item ∧ no_data (get_product offline 1) ∧
  signals one_item s' msg_add ∧ cart s' = cart one_item ∧
  cart_content s' = cart_content one_item ∧
  localStorage s' = localStorage one_item.
Proof.
  assert (no_data (get_product offline 1)) as Hno by (by left).
  split; [apply reachable_one_item|]. split; [exact Hno|].
  exact (addProduct_unresolved_product offline 1 one_item
           reachable_one_item Hno).
Defined.

Lemma addProduct_stock_unavailable_witness :
  let s' := perform unstocked (AddProduct 1) one_item in
  reachable one_item ∧ cart_content one_item = Some [mkProduct 1 1 tt] ∧
  list_find (has_id 1) [mkProduct 1 1 tt] = Some (0, mkProduct 1 1 tt) ∧
  get_product unstocked 1 = Resolved (Some (mkProduct 1 0 tt)) ∧
  no_data (get_stock unstocked 1) ∧
  signals one_item s' msg_add ∧ cart s' = cart one_item ∧
  cart_content s' = Some [mkProduct 1 1 tt] ∧
  localStorage s' = localStorage one_item.
Proof.
  assert (no_data (get_stock unstocked 1)) as Hno by (by left).
  split; [apply reachable_one_item|]. do 3 (split; [reflexivity|]).
  split; [exact Hno|].
  exact (addProduct_stock_unavailable unstocked 1 one_item _ 0 _ _
           reachable_one_item eq_refl eq_refl eq_refl Hno).
Defined.

Lemma perform_commits_or_signals_witness :
  let s' := perform (shop 1) (AddProduct 1) one_item in
  reachable one_item ∧
  ((toasts s' = toasts one_item ∧ cart s' ≠ cart one_item) ∨
   (∃ msg, msg ∈ messages_of (AddProduct 1) ∧ signals one_item s' msg ∧
           cart s' = cart one_item)).
Proof.
  split; [apply reachable_one_item|].
  exact (perform_commits_or_signals (shop 1) (AddProduct 1) one_item
           reachable_one_item).
Defined.

Lemma render_again_is_silent_witness :
  reachable one_item ∧
  render one_item =
    with_stockDeps (Some (stock one_item, stock one_item))
      (with_cartDeps (Some (cart one_item, cart one_item)) one_item).
Proof.
  split; [apply reachable_one_item|].
  exact (render_again_is_silent one_item reachable_one_item).
Defined.

Lemma loadStocks_answered_witness :
  awaiting_stock 0 waiting ∧
  (∀ r, no_data r → stock_listing r waiting = with_loads 0 waiting) ∧
  (∀ data,
     let s' := stock_listing (Resolved (Some data)) waiting in
     stock_snapshot s' = Some (reduce_stock data) ∧ stock s' ≠ stock waiting ∧
     (∀ k, k < length (stocks waiting) →
           stocks s' !! k = stocks waiting !! k) ∧
     loads s' = 1 ∧ cart s' = cart waiting ∧
     cart_content s' = cart_content waiting ∧
     localStorage s' = localStorage waiting ∧ toasts s' = toasts waiting).
Proof.
  split; [apply awaiting_stock_waiting|].
  exact (loadStocks_answered 0 waiting awaiting_stock_waiting).
Defined.

Lemma add_then_remove_witness :
  reachable fresh ∧ cart_content fresh = Some [] ∧
  list_find (has_id 1) ([] : list (Product unit)) = None ∧
  get_product (shop 5) 1 = Resolved (Some (mkProduct 1 0 tt)) ∧
  id (mkProduct 1 0 tt) = 1%Z ∧
  cart_content
    (perform offline (RemoveProduct 1) (perform (shop 5) (AddProduct 1) fresh))
    = Some [].
Proof.
  split; [apply reachable_fresh|]. do 4 (split; [reflexivity|]).
  exact (add_then_remove (shop 5) offline 1 fresh [] (mkProduct 1 0 tt)
           reachable_fresh eq_refl eq_refl eq_refl eq_refl).
Defined.

Lemma add_twice_witness :
  reachable fresh ∧ cart_content fresh = Some [] ∧
  list_find (has_id 1) ([] : list (Product unit)) = None ∧
  get_product (shop 5) 1 = Resolved (Some (mkProduct 1 0 tt)) ∧
  id (mkProduct 1 0 tt) = 1%Z ∧
  get_stock (shop 5) 1 = Resolved (Some (mkStock 1 5)) ∧
  (1 < stock_amount (mkStock 1 5))%Z ∧
  cart_content
    (perform (shop 5) (AddProduct 1) (perform (shop 5) (AddProduct 1) fresh))
    = Some [mkProduct 1 2 tt].
Proof.
  assert (1 < stock_amount (mkStock 1 5))%Z as Hlt by (simpl; lia).
  split; [apply reachable_fresh|]. do 5 (split; [reflexivity|]).
  split; [exact Hlt|].
  exact (add_twice (shop 5) (shop 5) 1 fresh [] (mkProduct 1 0 tt)
           (mkProduct 1 0 tt) (mkStock 1 5)
           reachable_fresh eq_refl eq_refl eq_refl eq_refl eq_refl eq_refl Hlt).
Defined.

Lemma reload_restores_cart_witness :
  (∀ c, JSON_parse (JSON_stringify c) = Some (IsCart c)) ∧
  (∀ c : list (Product unit), JSON_stringify c ≠ EmptyString) ∧
  reachable one_item ∧
  ∃ s2, mount (localStorage one_item) = Normal (Typed s2) ∧
        cart_content s2 = cart_content one_item.
Proof.
  split; [exact CanonicalFacts.parse_stringify|].
  split; [exact stringify_nonempty|].
  split; [apply reachable_one_item|].
  exact (reload_restores_cart (json := codec) one_item
           CanonicalFacts.parse_stringify stringify_nonempty
           reachable_one_item).
Defined.

Lemma operations_never_mutate_arrays_witness :
  let s' := perform (shop 5) (RemoveProduct 1) one_item in
  reachable one_item ∧ cart one_item < length (arrays one_item) ∧
  arrays s' !! cart one_item = arrays one_item !! cart one_item.
Proof.
  assert (cart one_item < length (arrays one_item)) as Hlt
    by (vm_compute; lia).
  split; [apply reachable_one_item|]. split; [exact Hlt|].
  exact (operations_never_mutate_arrays (shop 5) (RemoveProduct 1) one_item
           reachable_one_item _ Hlt).
Defined.

Lemma updateProductAmount_in_place_witness :
  let s' := perform (shop 10) (UpdateProductAmount 1 5) one_item in
  reachable one_item ∧ cart_content one_item = Some [mkProduct 1 1 tt] ∧
  list_find (has_id 1) [mkProduct 1 1 tt] = Some (0, mkProduct 1 1 tt) ∧
  get_stock (shop 10) 1 = Resolved (Some (mkStock 1 10)) ∧
  (1 <= 5 <= stock_amount (mkStock 1 10))%Z ∧
  arrays s' !! cart s' = arrays one_item !! cart one_item ∧
  cart_content (with_cart (cart one_item) s') = cart_content s' ∧
  cart_content s' = Some [mkProduct 1 5 tt].
Proof.
  assert (1 <= 5 <= stock_amount (mkStock 1 10))%Z as Hle by (simpl; lia).
  split; [apply reachable_one_item|]. do 3 (split; [reflexivity|]).
  split; [exact Hle|].
  exact (updateProductAmount_in_place (shop 10) 1 5 one_item _ 0 _ _
           reachable_one_item eq_refl eq_refl eq_refl Hle).
Defined.

Lemma addProduct_increment_in_place_witness :
  let s' := perform (shop 5) (AddProduct 1) one_item in
  reachable one_item ∧ cart_content one_item = Some [mkProduct 1 1 tt] ∧
  list_find (has_id 1) [mkProduct 1 1 tt] = Some (0, mkProduct 1 1 tt) ∧
  get_product (shop 5) 1 = Resolved (Some (mkProduct 1 0 tt)) ∧
  get_stock (shop 5) 1 = Resolved (Some (mkStock 1 5)) ∧
  (amount (mkProduct 1 1 tt) < stock_amount (mkStock 1 5))%Z ∧
  arrays s' !! cart s' = arrays one_item !! cart one_item ∧
  cart_content (with_cart (cart one_item) s') = cart_content s' ∧
  cart_content s' = Some [mkProduct 1 2 tt].
Proof.
  assert (amount (mkProduct 1 1 tt) < stock_amount (mkStock 1 5))%Z as Hlt
    by (simpl; lia).
  split; [apply reachable_one_item|]. do 4 (split; [reflexivity|]).
  split; [exact Hlt|].
  exact (addProduct_increment_in_place (shop 5) 1 one_item _ 0 _ _ _
           reachable_one_item eq_refl eq_refl eq_refl eq_refl Hlt).
Defined.

End MoreExamples.
